(** * sexyback3.js: camera-driven music ducking over a supervised ffmpeg pipeline

    A shallow embedding of [src/sexyback3.js].  The script has four parts:
    the webcam probe [isWebcamInUse], the pipeline supervisor
    [startPipeline] / [stopPipeline], the ZeroMQ control client
    [initZmq] / [setMusicVolume], and the poll loop of [main].

    Everything outside the script (child processes, the ZeroMQ socket, the
    timers of the event loop, the clock) is environment: its answers are
    inputs of the definitions below, and every theorem quantifies over them. *)

From Stdlib Require Import List String Ascii NArith Bool Lia DecimalString.
Import ListNotations.
Local Open Scope string_scope.
Local Open Scope list_scope.

Set Implicit Arguments.

(* ================================================================== *)
(** ** JavaScript strings and numbers, as far as the script uses them *)
(* ================================================================== *)

Module Js.

(** [String.prototype.toLowerCase] on the code units the probe can see. *)
Definition lower_ascii (c : ascii) : ascii :=
  let n := N_of_ascii c in
  if (65 <=? n)%N && (n <=? 90)%N then ascii_of_N (n + 32) else c.

Fixpoint toLowerCase (s : string) : string :=
  match s with
  | EmptyString => EmptyString
  | String c r => String (lower_ascii c) (toLowerCase r)
  end.

(** White space removed by [String.prototype.trim]: TAB, LF, VT, FF, CR,
    space. *)
Definition is_space (c : ascii) : bool :=
  let n := N_of_ascii c in
  ((9 <=? n)%N && (n <=? 13)%N) || (n =? 32)%N.

Fixpoint trimStart (s : string) : string :=
  match s with
  | EmptyString => EmptyString
  | String c r => if is_space c then trimStart r else s
  end.

Fixpoint trimEnd (s : string) : string :=
  match s with
  | EmptyString => EmptyString
  | String c r =>
      match trimEnd r with
      | EmptyString => if is_space c then EmptyString else String c EmptyString
      | r' => String c r'
      end
  end.

Definition trim (s : string) : string := trimEnd (trimStart s).

(** [String.prototype.includes]. *)
Fixpoint includes (s pat : string) : bool :=
  if prefix pat s then true
  else match s with
       | EmptyString => false
       | String _ r => includes r pat
       end.

(** The numbers that reach a template literal in the script are gains in
    the range documented in the CONFIG block ("0..2"), written with at
    most two decimals.  A number is kept as its count of hundredths, and
    [toString] is [Number::toString] on such a value: no fraction when it
    is an integer, one digit when the second is zero, two otherwise. *)
Record number := Hundredths { hundredths : N }.

Definition dec (n : N) : string := NilZero.string_of_uint (N.to_uint n).

Definition toString (x : number) : string :=
  let i := (hundredths x / 100)%N in
  let f := (hundredths x mod 100)%N in
  if (f =? 0)%N then dec i
  else if (f mod 10 =? 0)%N then (dec i ++ "." ++ dec (f / 10))%string
  else (dec i ++ "." ++ dec (f / 10) ++ dec (f mod 10))%string.

End Js.

(* ================================================================== *)
(** ** CONFIG (lines 14-23) *)
(* ================================================================== *)

Definition MUSIC_GAIN_ACTIVE : Js.number := Js.Hundredths 35.   (* 0.35 *)
Definition MUTE : Js.number := Js.Hundredths 0.                 (* 0.0  *)
Definition CAM_POLL_MS : N := 150.
Definition DEBOUNCE_MS : N := 300.   (* the literal delay of line 264 *)
Definition WARMUP_MS : N := 350.     (* the literal delay of line 243 *)
Definition ZMQ_ENDPOINT : string := "tcp://127.0.0.1:5555".

(* ================================================================== *)
(** ** Camera detection: [isWebcamInUse] (lines 32-67) *)
(* ================================================================== *)

Module Probe.

(** What the spawned PowerShell child can make the script observe: chunks
    on its stdout, and the 'close' and 'error' events of the child. *)
Inductive ChildEvent :=
| Data (d : string)
| Close
| Error.

(** State of a promise. *)
Inductive Promise (A : Type) :=
| Pending
| Resolved (a : A)
| Rejected (e : string).
Arguments Pending {A}.
Arguments Resolved {A} a.
Arguments Rejected {A} e.

(** [resolve] of the promise executor: only the first call settles. *)
Definition resolve {A} (p : Promise A) (a : A) : Promise A :=
  match p with
  | Pending => Resolved a
  | _ => p
  end.

(** The closure of the executor: the accumulator [out] of line 62 and the
    promise being built. *)
Record Closure := { out : string; promise : Promise bool }.

Definition start : Closure := {| out := ""; promise := Pending |}.

(** The three listeners of lines 63-65. *)
Definition on_event (c : Closure) (e : ChildEvent) : Closure :=
  match e with
  | Data d => {| out := (out c ++ d)%string; promise := promise c |}
  | Close =>
      {| out := out c;
         promise := resolve (promise c)
                      (Js.includes (Js.toLowerCase (Js.trim (out c))) "true") |}
  | Error => {| out := out c; promise := resolve (promise c) false |}
  end.

(** The promise once the three listeners are attached and the child has
    emitted [evs]. *)
Definition listen (evs : list ChildEvent) : Promise bool :=
  promise (fold_left on_event evs start).

(** What [spawn] hands back at line 59.  A program that cannot be started
    (ENOENT, EACCES) still gives a child with its stdio streams, and the
    failure arrives later as the 'error' event.  When the process runs out
    of file descriptors (EMFILE, ENFILE) the child comes back without
    streams, so [pwsh.stdout] is undefined.  For other failures [spawn]
    throws. *)
Record Child := { has_stdout : bool }.

Inductive Launch :=
| Returns (c : Child)
| Throws (e : string).

(** The TypeError of [pwsh.stdout.on] on an undefined [pwsh.stdout]. *)
Definition no_stdout_error : string :=
  "TypeError: Cannot read properties of undefined (reading 'on')".

(** Lines 59-65, the body of the executor: what it throws, if it throws
    before its listeners are attached.  Nothing in it is guarded. *)
Definition executor_throws (l : Launch) : option string :=
  match l with
  | Throws e => Some e                                            (* line 59 *)
  | Returns c => if has_stdout c then None else Some no_stdout_error   (* line 63 *)
  end.

(** Lines 32-67: [new Promise(executor)].  An exception thrown by the
    executor rejects the promise; otherwise the listeners settle it. *)
Definition isWebcamInUse (l : Launch) (evs : list ChildEvent) : Promise bool :=
  match executor_throws l with
  | Some e => Rejected e
  | None => listen evs
  end.

(** A child that was handed back with its streams. *)
Definition piped : Launch := Returns {| has_stdout := true |}.

Definition settles (e : ChildEvent) : bool :=
  match e with Data _ => false | _ => true end.

(** Everything the child wrote before its first 'close' or 'error'. *)
Fixpoint output_before_settle (evs : list ChildEvent) : string :=
  match evs with
  | Data d :: r => (d ++ output_before_settle r)%string
  | _ => ""
  end.

(** The test of line 64 on the text collected so far. *)
Definition verdict (text : string) : bool :=
  Js.includes (Js.toLowerCase (Js.trim text)) "true".

(** The first 'close' or 'error', when there is one. *)
Fixpoint first_settle (evs : list ChildEvent) : option ChildEvent :=
  match evs with
  | [] => None
  | Data _ :: r => first_settle r
  | e :: _ => Some e
  end.

End Probe.

(* ================================================================== *)
(** ** Globals (lines 25-29), observable effects, and the script monad *)
(* ================================================================== *)

Inductive Leg := Ffmpeg | Ffplay.

(** A [ChildProcess] object: the [killed] property, whether the OS process
    behind it is still there, and which of its stdio streams are pipes. *)
Record ChildProcess := {
  killed : bool;
  running : bool;
  stdin : bool;
  stdout : bool
}.

(** The [zmq.Request] object; the script never looks inside it. *)
Inductive Socket := Request.

Record Globals := {
  procFfmpeg : option ChildProcess;
  procFfplay : option ChildProcess;
  zmqSock : option Socket;
  stopping : bool
}.

(** The state of lines 26-29 when the module has just been loaded. *)
Definition globals0 : Globals :=
  {| procFfmpeg := None; procFfplay := None; zmqSock := None; stopping := false |}.

(** What the script does to the outside world, in the order it does it.
    The write to [stopping] is listed too, because its place among the
    other steps is part of the contract of [stopPipeline]. *)
Inductive Effect :=
| Spawn (l : Leg)
| Pipe
| Unpipe
| StdinEnd
| StdinDestroy
| Kill (l : Leg)                 (* SIGTERM delivered to the process *)
| SetStopping (b : bool)
| Log (msg : string)
| ZmqConnect (endpoint : string)
| ZmqSend (cmd : string)
| ZmqReceive
| Exit (code : N).

(** A computation either completes or throws. *)
Inductive Res (A : Type) :=
| Ok (a : A)
| Raise (e : string).
Arguments Ok {A} a.
Arguments Raise {A} e.

(** Synchronous script code: reads and writes the globals, performs
    effects, may throw. *)
Definition M (A : Type) : Type := Globals -> Res A * Globals * list Effect.

Definition ret {A} (a : A) : M A := fun g => (Ok a, g, []).

Definition bind {A B} (m : M A) (k : A -> M B) : M B :=
  fun g =>
    match m g with
    | (Ok a, g1, e1) =>
        match k a g1 with
        | (r, g2, e2) => (r, g2, e1 ++ e2)
        end
    | (Raise e, g1, e1) => (Raise e, g1, e1)
    end.

Definition throw {A} (e : string) : M A := fun g => (Raise e, g, []).

(** [try { m } catch {}]. *)
Definition try_ (m : M unit) : M unit :=
  fun g =>
    match m g with
    | (Raise _, g1, e1) => (Ok tt, g1, e1)
    | r => r
    end.

Definition get : M Globals := fun g => (Ok g, g, []).
Definition put (g : Globals) : M unit := fun _ => (Ok tt, g, []).
Definition emit (e : Effect) : M unit := fun g => (Ok tt, g, [e]).

Notation "x <- m ;; k" := (bind m (fun x => k))
  (at level 61, m at next level, right associativity).
Notation "m ;; k" := (bind m (fun _ => k))
  (at level 61, right associativity).

(** A call into the environment that either performs [eff] or throws. *)
Definition ext (throws : option string) (eff : Effect) : M unit :=
  match throws with
  | Some e => throw e
  | None => emit eff
  end.

(** How an awaited promise of the environment settles. *)
Inductive Settle :=
| Fulfilled
| Rejected (e : string).

(** [await p]: a rejection is thrown at the [await]. *)
Definition await (p : Settle) : M unit :=
  match p with
  | Fulfilled => ret tt
  | Rejected e => throw e
  end.

Definition result {A} (x : Res A * Globals * list Effect) : Res A := fst (fst x).
Definition globals {A} (x : Res A * Globals * list Effect) : Globals := snd (fst x).
Definition effects {A} (x : Res A * Globals * list Effect) : list Effect := snd x.

(* ================================================================== *)
(** ** Pipeline supervisor: [startPipeline], [stopPipeline] (lines 70-209) *)
(* ================================================================== *)

Module Pipeline.

Definition proc (l : Leg) (g : Globals) : option ChildProcess :=
  match l with Ffmpeg => procFfmpeg g | Ffplay => procFfplay g end.

Definition set_proc (l : Leg) (p : option ChildProcess) : M unit :=
  g <- get ;;
  match l with
  | Ffmpeg => put {| procFfmpeg := p; procFfplay := procFfplay g;
                     zmqSock := zmqSock g; stopping := stopping g |}
  | Ffplay => put {| procFfmpeg := procFfmpeg g; procFfplay := p;
                     zmqSock := zmqSock g; stopping := stopping g |}
  end.

Definition set_stopping (b : bool) : M unit :=
  g <- get ;;
  put {| procFfmpeg := procFfmpeg g; procFfplay := procFfplay g;
         zmqSock := zmqSock g; stopping := b |} ;;
  emit (SetStopping b).

Definition mark_killed (p : ChildProcess) : ChildProcess :=
  {| killed := true; running := running p; stdin := stdin p; stdout := stdout p |}.

Definition mark_exited (p : ChildProcess) : ChildProcess :=
  {| killed := killed p; running := false; stdin := stdin p; stdout := stdout p |}.

(** [proc?.kill("SIGTERM")].  On a null handle the optional chain does
    nothing.  Otherwise [ChildProcess.prototype.kill] either throws, or
    delivers the signal and sets [killed] when the process is still
    there, or returns false when it has already exited. *)
Definition kill (l : Leg) (throws : option string) : M unit :=
  g <- get ;;
  match proc l g with
  | None => ret tt
  | Some p =>
      match throws with
      | Some e => throw e
      | None =>
          if running p
          then emit (Kill l) ;; set_proc l (Some (mark_killed p))
          else ret tt
      end
  end.

(** Which of the two spawned programs actually came up. *)
Record StartEnv := { ffmpeg_runs : bool; ffplay_runs : bool }.

(** [spawn] with the stdio option of lines 135 and 160: ffmpeg has a
    piped stdout, ffplay a piped stdin.  A program that cannot be started
    (ENOENT, EACCES) still gives a handle with its streams, here with
    [running] false; Node reports the failure afterwards, by an 'error'
    event on the handle: see [spawn_errors]. *)
Definition spawn (l : Leg) (runs : bool) : M unit :=
  emit (Spawn l) ;;
  set_proc l (Some {| killed := false; running := runs;
                      stdin := match l with Ffplay => true | Ffmpeg => false end;
                      stdout := match l with Ffmpeg => true | Ffplay => false end |}).

(** The double quote character, for the banner of line 180. *)
Definition dq : string := String (ascii_of_N 34) EmptyString.

Definition running_banner : string :=
  ("[pipeline] running. Default playback MUST be " ++ dq
     ++ "CABLE Input (VB-Audio Virtual Cable)" ++ dq ++ ".")%string.

(** Lines 70-182.  The listener registered on ffplay's 'close' is
    [ffplay_on_close] below. *)
Definition startPipeline (env : StartEnv) : M unit :=
  set_stopping false ;;
  spawn Ffmpeg (ffmpeg_runs env) ;;
  spawn Ffplay (ffplay_runs env) ;;
  emit Pipe ;;
  emit (Log running_banner).





(** The 'close' listener of ffplay, lines 172-177. *)
Definition ffplay_on_close (kill_throws : option string) : M unit :=
  g <- get ;;
  match procFfmpeg g with
  | Some p =>
      if negb (stopping g) && negb (killed p)
      then try_ (kill Ffmpeg kill_throws)
      else ret tt
  | None => ret tt
  end.

(** A child process is gone: its handle, if a global still holds it, is
    no longer running, and the listeners registered on 'close' for that
    child run.  Only ffplay has one; nothing listens for ffmpeg closing
    (line 138 listens for 'error' only). *)
Definition note_exit (l : Leg) : M unit :=
  g <- get ;;
  match proc l g with
  | Some p => set_proc l (Some (mark_exited p))
  | None => ret tt
  end.

Definition dispatch_close (l : Leg) (kill_throws : option string) : M unit :=
  note_exit l ;;
  match l with
  | Ffplay => ffplay_on_close kill_throws
  | Ffmpeg => ret tt
  end.

(** Which of the calls made by [stopPipeline] throw. *)
Record StopEnv := {
  unpipe_throws : option string;
  end_throws : option string;
  destroy_throws : option string;
  kill_ffplay_throws : option string;
  kill_ffmpeg_throws : option string
}.

Definition has_stream (sel : ChildProcess -> bool) (p : option ChildProcess) : bool :=
  match p with Some c => sel c | None => false end.

(** Lines 185-209. *)
Definition stopPipeline (env : StopEnv) : M unit :=
  set_stopping true ;;
  try_ (g <- get ;;
        if has_stream stdout (procFfmpeg g) && has_stream stdin (procFfplay g)
        then try_ (ext (unpipe_throws env) Unpipe) ;;
             try_ (ext (end_throws env) StdinEnd) ;;
             try_ (ext (destroy_throws env) StdinDestroy)
        else ret tt) ;;
  try_ (kill Ffplay (kill_ffplay_throws env)) ;;
  try_ (kill Ffmpeg (kill_ffmpeg_throws env)) ;;
  set_proc Ffplay None ;;
  set_proc Ffmpeg None ;;
  emit (Log "[pipeline] stopped.").

Definition is_kill (e : Effect) : bool :=
  match e with Kill _ => true | _ => false end.

(** The steps of a teardown in the order of lines 186-208; what a run of
    [stopPipeline] does is always a selection of these, in this order. *)
Definition teardown_order : list Effect :=
  [SetStopping true; Unpipe; StdinEnd; StdinDestroy; Kill Ffplay; Kill Ffmpeg;
   Log "[pipeline] stopped."].

Definition other (l : Leg) : Leg :=
  match l with Ffmpeg => Ffplay | Ffplay => Ffmpeg end.

(** A pipeline in which both programs are up and nobody has asked to
    stop. *)
Definition healthy (g : Globals) : Prop :=
  stopping g = false /\
  forall l, exists p, proc l g = Some p /\ running p = true /\ killed p = false.

(** Fault propagation in both directions: whichever child closes in a
    healthy pipeline, the other one is sent SIGTERM. *)
Definition propagates_both_ways : Prop :=
  forall l g kt, healthy g -> In (Kill (other l)) (effects (dispatch_close l kt g)).

Definition no_throw : StopEnv :=
  {| unpipe_throws := None; end_throws := None; destroy_throws := None;
     kill_ffplay_throws := None; kill_ffmpeg_throws := None |}.






Fixpoint subseq (xs ys : list Effect) : Prop :=
  match xs, ys with
  | [], _ => True
  | _ :: _, [] => False
  | x :: xs', y :: ys' => (x = y /\ subseq xs' ys') \/ subseq xs ys'
  end.

End Pipeline.

(* ================================================================== *)
(** ** ZeroMQ control: [initZmq], [setMusicVolume] (lines 212-230) *)
(* ================================================================== *)

Module Control.

(** [try { m } catch (e) { h e }]. *)
Definition try_catch {A} (m : M A) (h : string -> M A) : M A :=
  fun g =>
    match m g with
    | (Raise e, g1, e1) =>
        match h e g1 with
        | (r, g2, e2) => (r, g2, e1 ++ e2)
        end
    | r => r
    end.

Definition set_zmqSock (s : option Socket) : M unit :=
  g <- get ;;
  put {| procFfmpeg := procFfmpeg g; procFfplay := procFfplay g;
         zmqSock := s; stopping := stopping g |}.

(** Lines 212-217.  [connect] is how [zmqSock.connect(ZMQ_ENDPOINT)]
    turns out; the function has no handler of its own around it. *)
Definition initZmq (connect : Settle) : M unit :=
  set_zmqSock (Some Request) ;;
  emit (ZmqConnect ZMQ_ENDPOINT) ;;
  await connect.

(** The command text of line 222. *)
Definition command (vol : Js.number) : string :=
  ("volume@mus volume " ++ Js.toString vol)%string.

(** [setMusicVolume] is an async function with two [await]s; a call is
    either over or suspended at one of them. *)
Inductive SvPoint :=
| AtSend        (* line 224: await zmqSock.send(cmd) *)
| AtReceive.    (* line 226: await zmqSock.receive().catch(() => {}) *)

Inductive Status :=
| Returned
| Awaiting (p : SvPoint).

(** Lines 220-224: from the call to the first [await]. *)
Definition setMusicVolume (vol : Js.number) : M Status :=
  g <- get ;;
  match zmqSock g with
  | None => ret Returned
  | Some _ =>
      emit (ZmqSend (command vol)) ;;
      ret (Awaiting AtSend)
  end.

(** Lines 224-230: what the call does when the promise it is suspended on
    settles with [r].  Both resumptions are still inside the [try] of
    line 223. *)
Definition setMusicVolume_resume (p : SvPoint) (r : Settle) : M Status :=
  try_catch
    match p with
    | AtSend =>
        await r ;;
        emit ZmqReceive ;;
        ret (Awaiting AtReceive)
    | AtReceive =>
        try_ (await r) ;;          (* .catch(() => {}) *)
        ret Returned
    end
    (fun _ => ret Returned).

(** A whole call against an environment that settles the awaited promises
    with [answers], in order.  When the answers run out the call is left
    suspended: the promise it waits on never settles. *)
Fixpoint drive (st : Status) (answers : list Settle) : M Status :=
  match st, answers with
  | Awaiting p, r :: rest =>
      st' <- setMusicVolume_resume p r ;;
      drive st' rest
  | _, _ => ret st
  end.

Definition setMusicVolume_call (vol : Js.number) (answers : list Settle) : M Status :=
  st <- setMusicVolume vol ;;
  drive st answers.

Definition is_send (e : Effect) : bool :=
  match e with ZmqSend _ => true | _ => false end.

(** The globals once [initZmq] has run on the freshly loaded module. *)
Definition connected_globals : Globals :=
  {| procFfmpeg := None; procFfplay := None; zmqSock := Some Request; stopping := false |}.

(** The circumstances of [initZmq]: whether anything listens at the
    endpoint, and how [zmqSock.connect] turns out.  They are separate
    inputs: [initZmq] sees only the second, and a ZeroMQ socket connects
    in the background, so that [connect] can return normally with nothing
    listening. *)
Record ConnectEnv := { listening : bool; connect_outcome : Settle }.

Definition initZmq_in (c : ConnectEnv) : M unit := initZmq (connect_outcome c).

(** "Fails when the endpoint is unreachable." *)
Definition fails_when_unreachable : Prop :=
  forall c g, listening c = false -> exists e, result (initZmq_in c g) = Raise e.

(** "The call always completes", against every environment, the one in
    which no reply ever arrives included. *)
Definition always_completes : Prop :=
  forall g vol answers, result (setMusicVolume_call vol answers g) = Ok Returned.

End Control.

(* ================================================================== *)
(** ** The poll loop of [main] (lines 247-269) on the event loop *)
(* ================================================================== *)

Module Loop.
Import Control.

Definition TimerId := N.

(** Who runs a piece of script code: the poll loop, or the callback of
    the timeout with the given id. *)
Inductive Caller :=
| Main
| Timer (id : TimerId).

(** An effect with its moment, its author, and the [setMusicVolume] calls
    that were between their [send] and the end of their [receive] when it
    happened. *)
Record Entry := {
  time : N;
  who : Caller;
  awaiting_reply : list Caller;
  what : Effect
}.

(** Where the async function [main] is suspended. *)
Inductive Pc :=
| AtProbe                  (* line 252: await isWebcamInUse() *)
| AtVolume (p : SvPoint)   (* line 257: await setMusicVolume(MUSIC_GAIN_ACTIVE) *)
| AtSleep (wake : N)       (* line 268: await sleep(CAM_POLL_MS) *)
| Crashed (e : string).    (* an exception left the loop *)

Record State := {
  glob : Globals;
  camWasActive : bool;                    (* line 248 *)
  stopTimer : option TimerId;             (* line 249 *)
  pc : Pc;
  timers : list (TimerId * N);            (* timeouts not yet run or cleared, with due time *)
  nextTimer : TimerId;                    (* the id the next setTimeout returns *)
  detached : list (TimerId * SvPoint);    (* setMusicVolume calls nobody awaits (line 263) *)
  now : N;                                (* milliseconds *)
  trace : list Entry
}.

Definition set_glob_trace (g : Globals) (t : list Entry) (s : State) : State :=
  {| glob := g; camWasActive := camWasActive s; stopTimer := stopTimer s; pc := pc s;
     timers := timers s; nextTimer := nextTimer s; detached := detached s;
     now := now s; trace := t |}.

Definition set_pc (p : Pc) (s : State) : State :=
  {| glob := glob s; camWasActive := camWasActive s; stopTimer := stopTimer s; pc := p;
     timers := timers s; nextTimer := nextTimer s; detached := detached s;
     now := now s; trace := trace s |}.

Definition set_camWasActive (b : bool) (s : State) : State :=
  {| glob := glob s; camWasActive := b; stopTimer := stopTimer s; pc := pc s;
     timers := timers s; nextTimer := nextTimer s; detached := detached s;
     now := now s; trace := trace s |}.

Definition set_stopTimer (h : option TimerId) (s : State) : State :=
  {| glob := glob s; camWasActive := camWasActive s; stopTimer := h; pc := pc s;
     timers := timers s; nextTimer := nextTimer s; detached := detached s;
     now := now s; trace := trace s |}.

Definition set_timers (ts : list (TimerId * N)) (n : TimerId) (s : State) : State :=
  {| glob := glob s; camWasActive := camWasActive s; stopTimer := stopTimer s; pc := pc s;
     timers := ts; nextTimer := n; detached := detached s;
     now := now s; trace := trace s |}.

Definition set_detached (d : list (TimerId * SvPoint)) (s : State) : State :=
  {| glob := glob s; camWasActive := camWasActive s; stopTimer := stopTimer s; pc := pc s;
     timers := timers s; nextTimer := nextTimer s; detached := d;
     now := now s; trace := trace s |}.

Definition set_now (t : N) (s : State) : State :=
  {| glob := glob s; camWasActive := camWasActive s; stopTimer := stopTimer s; pc := pc s;
     timers := timers s; nextTimer := nextTimer s; detached := detached s;
     now := t; trace := trace s |}.

(** Association lists keyed by timer id. *)
Section Assoc.
Variable V : Type.

Fixpoint lookup (id : TimerId) (l : list (TimerId * V)) : option V :=
  match l with
  | [] => None
  | (k, v) :: r => if (k =? id)%N then Some v else lookup id r
  end.

Definition remove (id : TimerId) (l : list (TimerId * V)) : list (TimerId * V) :=
  filter (fun kv => negb (fst kv =? id)%N) l.

Definition update (id : TimerId) (v : V) (l : list (TimerId * V)) : list (TimerId * V) :=
  map (fun kv => if (fst kv =? id)%N then (id, v) else kv) l.
End Assoc.

(** The [setMusicVolume] calls that have sent and not yet finished. *)
Definition awaiting (s : State) : list Caller :=
  match pc s with AtVolume _ => [Main] | _ => [] end
  ++ map (fun t => Timer (fst t)) (detached s).

Definition tag (s : State) (c : Caller) (e : Effect) : Entry :=
  {| time := now s; who := c; awaiting_reply := awaiting s; what := e |}.

(** Run a synchronous stretch of script code on behalf of [c]. *)
Definition exec {A} (c : Caller) (m : M A) (s : State) : Res A * State :=
  match m (glob s) with
  | (r, g, effs) => (r, set_glob_trace g (trace s ++ map (tag s c) effs) s)
  end.

(** [clearTimeout(h)]: nothing happens for null or for a timeout that has
    run or has been cleared already. *)
Definition clearTimeout (h : option TimerId) (s : State) : State :=
  match h with
  | None => s
  | Some id => set_timers (remove id (timers s)) (nextTimer s) s
  end.

(** [setTimeout(cb, delay)]: a fresh timeout, due [delay] ms from now. *)
Definition setTimeout (delay : N) (s : State) : TimerId * State :=
  (nextTimer s,
   set_timers (timers s ++ [(nextTimer s, now s + delay)%N]) (nextTimer s + 1)%N s).

(** Lines 267-268. *)
Definition end_iteration (active : bool) (s : State) : State :=
  set_pc (AtSleep (now s + CAM_POLL_MS)%N) (set_camWasActive active s).

(** Line 257 onwards, once the call of [setMusicVolume] has reached an
    [await] or its end.  [active] is true on this branch. *)
Definition after_volume (r : Res Status * State) : State :=
  match r with
  | (Ok Returned, s) => end_iteration true s
  | (Ok (Awaiting p), s) => set_pc (AtVolume p) s
  | (Raise e, s) => set_pc (Crashed e) s
  end.

(** Lines 254-268: one iteration from the probe reading [active] to the
    next suspension. *)
Definition iteration (active : bool) (s : State) : State :=
  if active && negb (camWasActive s) then
    let s1 := snd (exec Main (emit (Log "[camera] IN USE -> music ON")) s) in
    let s2 := clearTimeout (stopTimer s1) s1 in
    after_volume (exec Main (setMusicVolume MUSIC_GAIN_ACTIVE) s2)
  else if negb active && camWasActive s then
    let s1 := clearTimeout (stopTimer s) s in
    let (id, s2) := setTimeout DEBOUNCE_MS s1 in
    end_iteration active (set_stopTimer (Some id) s2)
  else end_iteration active s.

(** Lines 261-264: the callback of the timeout [id]. *)
Definition on_timer (id : TimerId) (s : State) : State :=
  let s1 := snd (exec (Timer id) (emit (Log "[camera] idle -> music OFF")) s) in
  match exec (Timer id) (setMusicVolume MUTE) s1 with
  | (Ok (Awaiting p), s2) => set_detached (detached s2 ++ [(id, p)]) s2
  | (Ok Returned, s2) => s2
  | (Raise e, s2) => set_pc (Crashed e) s2
  end.

(** A call of [setMusicVolume] made by a timeout callback moves on. *)
Definition resume_detached (id : TimerId) (p : SvPoint) (r : Settle) (s : State) : State :=
  match exec (Timer id) (setMusicVolume_resume p r) s with
  | (Ok (Awaiting p'), s1) => set_detached (update id p' (detached s1)) s1
  | (Ok Returned, s1) => set_detached (remove id (detached s1)) s1
  | (Raise e, s1) => set_pc (Crashed e) s1
  end.

(** What the event loop can deliver. *)
Inductive Event :=
| Tick (dt : N)                        (* time passes *)
| ProbeResolved (active : bool)        (* isWebcamInUse() resolves *)
| Settled (c : Caller) (r : Settle)    (* the promise a setMusicVolume call awaits settles *)
| TimerFired (id : TimerId)            (* a due timeout runs *)
| SleepDone                            (* the sleep of line 268 is over *)
| ProbeRejected (e : string).          (* isWebcamInUse() is rejected *)

(** One turn of the event loop; [None] when the event cannot happen in
    [s].  A timeout runs no earlier than its due time, the sleep ends no
    earlier than [CAM_POLL_MS] after it began. *)
Definition step (e : Event) (s : State) : option State :=
  match pc s, e with
  | Crashed _, _ => None
  | _, Tick dt => Some (set_now (now s + dt)%N s)
  | AtProbe, ProbeResolved active => Some (iteration active s)
  | AtVolume p, Settled Main r =>
      Some (after_volume (exec Main (setMusicVolume_resume p r) s))
  | _, Settled (Timer id) r =>
      match lookup id (detached s) with
      | Some p => Some (resume_detached id p r s)
      | None => None
      end
  | _, TimerFired id =>
      match lookup id (timers s) with
      | Some due =>
          if (due <=? now s)%N
          then Some (on_timer id (set_timers (remove id (timers s)) (nextTimer s) s))
          else None
      | None => None
      end
  | AtSleep wake, SleepDone =>
      if (wake <=? now s)%N then Some (set_pc AtProbe s) else None
  | AtProbe, ProbeRejected e => Some (set_pc (Crashed e) s)
  | _, _ => None
  end.

Fixpoint run (evs : list Event) (s : State) : option State :=
  match evs with
  | [] => Some s
  | e :: r =>
      match step e s with
      | Some s' => run r s'
      | None => None
      end
  end.

(** The loop as line 251 first finds it: connected or not according to
    [g], reading not yet taken, no timeout. *)
Definition loop_init (g : Globals) (t0 : N) : State :=
  {| glob := g; camWasActive := false; stopTimer := None; pc := AtProbe;
     timers := []; nextTimer := 0%N; detached := []; now := t0; trace := [] |}.

Definition reachable (s : State) : Prop :=
  exists g t0 evs, run evs (loop_init g t0) = Some s.

(** The commands on the control channel among the entries of a trace. *)
Definition commands (t : list Entry) : list Entry :=
  filter (fun x => is_send (what x)) t.

Definition is_reading (b : bool) (e : Event) : bool :=
  match e with
  | ProbeResolved a => Bool.eqb a b
  | _ => false
  end.

(** No probe reading in [evs] is [b]. *)
Definition no_reading (b : bool) (evs : list Event) : Prop :=
  forallb (fun e => negb (is_reading b e)) evs = true.

Definition is_timer_fired (e : Event) : bool :=
  match e with TimerFired _ => true | _ => false end.

(** The time that passes during [evs]. *)
Fixpoint elapsed (evs : list Event) : N :=
  match evs with
  | [] => 0
  | Tick dt :: r => dt + elapsed r
  | _ :: r => elapsed r
  end.

Definition sends (vol : Js.number) (x : Entry) : Prop :=
  what x = ZmqSend (command vol).

(** At most one timeout is pending; it is the one [stopTimer] holds, and
    while it is pending the last reading was false and the loop is not
    inside [setMusicVolume]. *)
Definition wf (s : State) : Prop :=
  timers s = [] \/
  exists id due,
    timers s = [(id, due)] /\ stopTimer s = Some id /\
    camWasActive s = false /\ (forall p, pc s <> AtVolume p).

(** A true reading that finds a timeout pending cancels it without any
    command. *)
Definition cancel_is_silent : Prop :=
  forall s s',
    reachable s -> timers s <> [] ->
    step (ProbeResolved true) s = Some s' ->
    commands (trace s') = commands (trace s).

(** No command is sent while an earlier one is awaiting its reply. *)
Definition serialized : Prop :=
  forall s x, reachable s -> In x (commands (trace s)) -> awaiting_reply x = [].

(** The commands a turn of the event loop sends, by the transition it
    detects: the active gain when a true reading follows a false one, the
    mute when a debounce timeout runs, nothing otherwise. *)
Definition detected (e : Event) (s : State) : list Entry :=
  match e with
  | ProbeResolved true =>
      if camWasActive s then []
      else [tag s Main (ZmqSend (command MUSIC_GAIN_ACTIVE))]
  | TimerFired id => [tag s (Timer id) (ZmqSend (command MUTE))]
  | _ => []
  end.

(** A full poll with the command acknowledged, and the wait to the next
    poll. *)
Definition acked : list Event := [Settled Main Fulfilled; Settled Main Fulfilled].
Definition next_poll : list Event := [Tick CAM_POLL_MS; SleepDone].

(** Readings T, F one poll interval apart: the state in which the
    debounce timeout is pending and the next probe is out. *)
Definition scenario_TF : list Event :=
  [ProbeResolved true] ++ acked ++ next_poll ++
  [ProbeResolved false] ++ next_poll.

(** Scenario C of the specification: readings T, F, T one poll interval
    apart. *)
Definition scenario_TFT : list Event := scenario_TF ++ [ProbeResolved true].

(** Readings T, F, then a probe that takes 150 ms to answer T: the
    timeout runs while the probe is out. *)
Definition scenario_overlap : list Event :=
  scenario_TF ++ [Tick 150%N; TimerFired 0%N; ProbeResolved true].

(** Scenario B of the specification up to the moment the timeout is due:
    readings T, T, F, F and two poll intervals after the first F. *)
Definition scenario_TTFF : list Event :=
  [ProbeResolved true] ++ acked ++ next_poll ++
  [ProbeResolved true] ++ next_poll ++
  [ProbeResolved false] ++ next_poll ++
  [ProbeResolved false] ++ next_poll.

(** Scenario A of the specification: readings F, F, T, T, T. *)
Definition scenario_FF : list Event :=
  [ProbeResolved false] ++ next_poll ++ [ProbeResolved false] ++ next_poll.
Definition scenario_TT : list Event :=
  acked ++ next_poll ++ [ProbeResolved true] ++ next_poll ++ [ProbeResolved true].

(** The state a schedule leads to, for schedules that can happen. *)
Definition final (evs : list Event) (s : State) : State :=
  match run evs s with Some s' => s' | None => s end.

(** The transitions detected along a schedule, in the order of their
    turns. *)
Fixpoint detections (evs : list Event) (s : State) : list Entry :=
  match evs with
  | [] => []
  | e :: r =>
      detected e s ++
      match step e s with Some s1 => detections r s1 | None => [] end
  end.

(** With the last reading true, or the active command on its way, no
    timeout is pending. *)
Definition settled_active (s : State) : Prop :=
  timers s = [] /\ (camWasActive s = true \/ exists p, pc s = AtVolume p).

(** What is on the control channel: active commands from the loop, mutes
    from timeout callbacks, none of them sent while a command of the loop
    was awaiting its reply. *)
Definition channel_ok (s : State) : Prop :=
  forall x, In x (commands (trace s)) ->
    ~ In Main (awaiting_reply x) /\
    ((who x = Main /\ sends MUSIC_GAIN_ACTIVE x) \/
     (exists id, who x = Timer id /\ sends MUTE x)).

(** The settling of a promise the poll loop itself awaits. *)
Definition is_main_settle (e : Event) : bool :=
  match e with Settled Main _ => true | _ => false end.

Definition is_probe (e : Event) : bool :=
  match e with ProbeResolved _ | ProbeRejected _ => true | _ => false end.

Definition is_probe_rejected (e : Event) : bool :=
  match e with ProbeRejected _ => true | _ => false end.

(** The next reading cannot come earlier than [CAM_POLL_MS] after the
    reading taken at [t0]. *)
Definition paced (t0 : N) (s : State) : Prop :=
  match pc s with
  | AtProbe => (t0 + CAM_POLL_MS <= now s)%N
  | AtSleep wake => (t0 + CAM_POLL_MS <= wake)%N
  | _ => (t0 <= now s)%N
  end /\ (t0 <= now s)%N.

(** Timeout ids are handed out in increasing order. *)
Definition fresh (s : State) : Prop :=
  forall id due, In (id, due) (timers s) -> (id < nextTimer s)%N.

End Loop.

(* ================================================================== *)
(** ** Start-up, failure and shutdown of the program (lines 233-245, 272-293) *)
(* ================================================================== *)

Module Program.
Import Pipeline Control.





(** How a stretch of the program ends: the poll loop begins, or an awaited
    promise never settles, or the process exits, or an exception nobody
    catches is thrown from a turn of the event loop and ends the process
    with no handler of the script run. *)
Inductive Outcome :=
| EntersLoop
| StuckAt (p : SvPoint)
| Exits (code : N)
| Dies (e : string).







(** [p.finally(k)]: [k] runs once [p] has settled, fulfilled or rejected,
    and a rejection of [p] is passed on; while [p] is pending [k] does not
    run. *)
Definition finally_ (p : M Status) (k : M Outcome) : M Outcome :=
  fun g =>
    match p g with
    | (Ok Returned, g1, e1) =>
        match k g1 with (r, g2, e2) => (r, g2, e1 ++ e2) end
    | (Ok (Awaiting q), g1, e1) => (Ok (StuckAt q), g1, e1)
    | (Raise e, g1, e1) =>
        match k g1 with
        | (Ok _, g2, e2) => (Raise e, g2, e1 ++ e2)
        | (Raise e', g2, e2) => (Raise e', g2, e1 ++ e2)
        end
    end.

(** Lines 273-284: the handler of SIGINT and of SIGTERM. *)
Definition on_signal (answers : list Settle) (env : StopEnv) : M Outcome :=
  finally_ (setMusicVolume_call MUTE answers)
           (stopPipeline env ;; emit (Exit 0) ;; ret (Exits 0)).

(** A sequence of children closing, each with the way the kill in the
    listener would turn out. *)
Fixpoint closes (evs : list (Leg * option string)) : M unit :=
  match evs with
  | [] => ret tt
  | (l, kt) :: r => dispatch_close l kt ;; closes r
  end.

Definition is_exit (e : Effect) : bool :=
  match e with Exit _ => true | _ => false end.

Definition is_teardown (e : Effect) : bool :=
  match e with
  | SetStopping _ | Unpipe | StdinEnd | StdinDestroy | Kill _ | Exit _ => true
  | _ => false
  end.

(** The effects of [startPipeline]. *)
Definition start_effects : list Effect :=
  [SetStopping false; Spawn Ffmpeg; Spawn Ffplay; Pipe; Log running_banner].

(** The ffmpeg handle is set and has its [killed] property set. *)
Definition ffmpeg_killed (g : Globals) : bool := has_stream killed (procFfmpeg g).

End Program.

(* ================================================================== *)
(** ** The text a child writes *)
(* ================================================================== *)

Module Text.

(** A pattern without white space, such as the word the probe looks for. *)
Fixpoint spaceless (p : string) : bool :=
  match p with
  | EmptyString => true
  | String c r => negb (Js.is_space c) && spaceless r
  end.

(** The chunks of the 'data' events put together, as line 63 does. *)
Definition text (chunks : list string) : string := fold_right append "" chunks.

End Text.

(* ================================================================== *)
(** * Properties *)
(* ================================================================== *)

(** ** Strings *)

Section StringFacts.
Import Js.

Lemma sapp_nil_r (s : string) : (s ++ "")%string = s.
Proof. induction s as [|c s IH]; simpl; [reflexivity | now rewrite IH]. Qed.

Lemma sapp_assoc (a b c : string) : ((a ++ b) ++ c)%string = (a ++ (b ++ c))%string.
Proof. induction a as [|x a IH]; simpl; [reflexivity | now rewrite IH]. Qed.

Lemma toLowerCase_app (a b : string) :
  toLowerCase (a ++ b) = (toLowerCase a ++ toLowerCase b)%string.
Proof. induction a as [|x a IH]; simpl; [reflexivity | now rewrite IH]. Qed.

Lemma prefix_app_r (p t b : string) :
  prefix p t = true -> prefix p (t ++ b) = true.
Proof.
  revert t; induction p as [|x p IH]; intros t H.
  - now destruct (t ++ b)%string.
  - destruct t as [|y t]; simpl in *; [discriminate|].
    destruct (ascii_dec x y); [now apply IH | discriminate].
Qed.

Lemma includes_app_r (t b p : string) :
  includes t p = true -> includes (t ++ b) p = true.
Proof.
  induction t as [|y t IH]; intros H.
  - assert (Hp : p = "") by (destruct p; [reflexivity | discriminate]).
    subst p. now destruct b.
  - cbn [includes] in H. cbn [append includes].
    destruct (prefix p (String y t)) eqn:E.
    + change (String y (t ++ b)) with (String y t ++ b)%string.
      now rewrite (prefix_app_r _ _ b E).
    + apply IH in H. rewrite H. now destruct (prefix p (String y (t ++ b))).
Qed.

Lemma includes_app_l (a t p : string) :
  includes t p = true -> includes (a ++ t) p = true.
Proof.
  intros H; induction a as [|x a IH]; [exact H|].
  cbn [append includes].
  rewrite IH. now destruct (prefix p (String x (a ++ t))).
Qed.

Lemma trimStart_suffix (s : string) : exists a, s = (a ++ trimStart s)%string.
Proof.
  induction s as [|c s [a IH]]; simpl.
  - now exists "".
  - destruct (is_space c).
    + exists (String c a). simpl. now rewrite <- IH.
    + now exists "".
Qed.

Lemma trimEnd_prefix (s : string) : exists b, s = (trimEnd s ++ b)%string.
Proof.
  induction s as [|c s [b IH]]; simpl.
  - now exists "".
  - destruct (trimEnd s) as [|d r] eqn:E.
    + destruct (is_space c).
      * exists (String c s). reflexivity.
      * exists b. simpl in *. now rewrite <- IH.
    + exists b. simpl in *. now rewrite <- IH.
Qed.

(** Trimming cannot make the word appear. *)
Lemma includes_trim (s p : string) :
  includes (toLowerCase (trim s)) p = true -> includes (toLowerCase s) p = true.
Proof.
  intros H. unfold trim in H.
  destruct (trimStart_suffix s) as [a Ha].
  destruct (trimEnd_prefix (trimStart s)) as [b Hb].
  rewrite Ha, Hb, !toLowerCase_app.
  now apply includes_app_l, includes_app_r.
Qed.

End StringFacts.

(** ** The probe *)

Section ProbeFacts.
Import Probe.

Lemma fold_on_event_settled (evs : list ChildEvent) (c : Closure) :
  promise c <> Pending -> promise (fold_left on_event evs c) = promise c.
Proof.
  revert c; induction evs as [|e evs IH]; intros c H; simpl; [reflexivity|].
  rewrite IH; destruct e; simpl; try assumption; try reflexivity;
    destruct (promise c); simpl; congruence.
Qed.

Lemma fold_on_event_pending (evs : list ChildEvent) (c : Closure) :
  promise c = Pending ->
  promise (fold_left on_event evs c) =
    match first_settle evs with
    | None => Pending
    | Some Error => Resolved false
    | Some _ => Resolved (verdict (out c ++ output_before_settle evs))
    end.
Proof.
  revert c; induction evs as [|e evs IH]; intros c H; simpl; [assumption|].
  destruct e as [d| |]; simpl.
  - rewrite IH by assumption. simpl. now rewrite sapp_assoc.
  - rewrite fold_on_event_settled; simpl; rewrite H; simpl;
      [now rewrite sapp_nil_r | discriminate].
  - rewrite fold_on_event_settled; simpl; rewrite H; simpl;
      [reflexivity | discriminate].
Qed.

Lemma listen_eq (evs : list ChildEvent) :
  listen evs =
    match first_settle evs with
    | None => Pending
    | Some Error => Resolved false
    | Some _ => Resolved (verdict (output_before_settle evs))
    end.
Proof. unfold listen. now rewrite fold_on_event_pending. Qed.

Lemma first_settle_some (evs : list ChildEvent) :
  existsb settles evs = true -> exists e, first_settle evs = Some e /\ settles e = true.
Proof.
  induction evs as [|e evs IH]; simpl; [discriminate|].
  destruct e; simpl; intros H; eauto.
Qed.

(** C7.  [isWebcamInUse] does not absorb every failure of the external
    query.  When [spawn] hands back a child without a stdout stream, line
    63 throws inside the executor, and when [spawn] itself throws, line 59
    does: the promise is then rejected, whatever the child emits
    afterwards.  Only when the listeners have been attached is the promise
    never rejected, and then an 'error' that comes first resolves it to
    false, as line 65 intends for a failed spawn. *)
Theorem isWebcamInUse_rejects_without_stdout (evs : list ChildEvent) :
  isWebcamInUse (Returns {| has_stdout := false |}) evs = Rejected no_stdout_error /\
  (forall e, isWebcamInUse (Throws e) evs = Rejected e) /\
  (forall e, isWebcamInUse piped evs <> Rejected e) /\
  (first_settle evs = Some Error -> isWebcamInUse piped evs = Resolved false).
Proof.
  repeat split.
  - intros e. unfold isWebcamInUse; simpl. rewrite listen_eq.
    destruct (first_settle evs) as [[| |]|]; discriminate.
  - intros H. unfold isWebcamInUse; simpl. now rewrite listen_eq, H.
Qed.

Lemma isWebcamInUse_rejects_without_stdout_witness :
  isWebcamInUse (Returns {| has_stdout := false |}) [Error; Close]
    = Rejected no_stdout_error /\
  isWebcamInUse piped [Error; Close] = Resolved false.
Proof.
  split.
  - exact (proj1 (isWebcamInUse_rejects_without_stdout [Error; Close])).
  - exact (proj2 (proj2 (proj2 (isWebcamInUse_rejects_without_stdout [Error; Close])))
             eq_refl).
Defined.

End ProbeFacts.

(** ** The pipeline supervisor *)

Section PipelineFacts.
Import Pipeline.

Ltac pick_subseq :=
  repeat (cbn [subseq]; first [exact I | left; split; [reflexivity|] | right]).

Ltac split_globals g :=
  let pm := fresh "pm" in let pp := fresh "pp" in
  destruct g as [pm pp ? ?];
  destruct pm as [[? [|] ? [|]]|]; destruct pp as [[? [|] [|] ?]|].

Ltac split_env env :=
  destruct env as [[?|] [?|] [?|] [?|] [?|]].

(** [stopPipeline] completes, leaves no handle behind, and what it did is
    a selection of the teardown steps in their order. *)
Lemma stopPipeline_once (env : StopEnv) (g : Globals) :
  let r := stopPipeline env g in
  result r = Ok tt /\
  globals r = {| procFfmpeg := None; procFfplay := None;
                 zmqSock := zmqSock g; stopping := true |} /\
  hd_error (effects r) = Some (SetStopping true) /\
  subseq (effects r) teardown_order.
Proof.
  split_globals g; split_env env; cbv -[subseq teardown_order];
    (repeat split; unfold teardown_order; pick_subseq).
Qed.




(** The claim as the specification words it fails on the started
    pipeline when ffmpeg is the child that closes: ffplay gets no
    signal. *)
Lemma ffmpeg_close_is_not_propagated : ~ propagates_both_ways.
Proof.
  intros H.
  specialize (H Ffmpeg
                (globals (startPipeline {| ffmpeg_runs := true; ffplay_runs := true |}
                            globals0))
                None).
  cbv in H. apply H.
  split; [reflexivity|].
  intros [|]; eexists; repeat split.
Qed.

(** C5, as the code has it.  When ffplay closes while [stopping] is false
    and the ffmpeg handle is live and not yet killed, ffmpeg is sent
    SIGTERM and marked killed.  When [stopping] is true, no child closing
    makes the supervisor do anything.  ffmpeg closing never does.  The
    listener itself never throws. *)
Theorem ffplay_close_stops_ffmpeg (l : Leg) (kt : option string) (g : Globals) :
  let r := dispatch_close l kt g in
  result r = Ok tt /\
  (l = Ffplay -> stopping g = false -> kt = None ->
   has_stream running (procFfmpeg g) = true ->
   has_stream killed (procFfmpeg g) = false ->
   effects r = [Kill Ffmpeg] /\ has_stream killed (procFfmpeg (globals r)) = true) /\
  (stopping g = true -> effects r = []) /\
  (l = Ffmpeg -> effects r = []).
Proof.
  destruct g as [pm pp z st]; destruct l; destruct kt;
    destruct pm as [[[|] [|] ? ?]|]; destruct pp as [[? ? ? ?]|]; destruct st;
    cbv; repeat split; intros; try discriminate; reflexivity.
Qed.

Lemma ffplay_close_stops_ffmpeg_witness :
  effects (dispatch_close Ffplay None
             (globals (startPipeline {| ffmpeg_runs := true; ffplay_runs := true |}
                         globals0)))
  = [Kill Ffmpeg].
Proof.
  apply (ffplay_close_stops_ffmpeg Ffplay None
           (globals (startPipeline {| ffmpeg_runs := true; ffplay_runs := true |}
                       globals0)));
    reflexivity.
Defined.

End PipelineFacts.

(** ** The control client *)

Section ControlFacts.
Import Control.

Example command_active : command MUSIC_GAIN_ACTIVE = "volume@mus volume 0.35".
Proof. reflexivity. Qed.

Example command_mute : command MUTE = "volume@mus volume 0".
Proof. reflexivity. Qed.

Lemma drive_returned (answers : list Settle) (g : Globals) :
  drive Returned answers g = (Ok Returned, g, []).
Proof. destruct answers; reflexivity. Qed.

(** C10.  With [zmqSock] still null a call of [setMusicVolume] is over at
    once: nothing is sent, nothing is thrown, the globals are untouched,
    whatever the environment would have answered. *)
Theorem setMusicVolume_before_init
        (vol : Js.number) (answers : list Settle) (g : Globals) :
  zmqSock g = None ->
  setMusicVolume_call vol answers g = (Ok Returned, g, []).
Proof.
  destruct g as [pm pp z st]; cbn; intros ->.
  destruct answers; reflexivity.
Qed.

Lemma setMusicVolume_before_init_witness :
  setMusicVolume_call MUSIC_GAIN_ACTIVE [Fulfilled; Fulfilled] globals0
  = (Ok Returned, globals0, []).
Proof.
  apply (setMusicVolume_before_init MUSIC_GAIN_ACTIVE [Fulfilled; Fulfilled] globals0).
  reflexivity.
Defined.

(** The claim as worded fails when nothing listens and [connect] returns
    normally all the same: [initZmq] then succeeds. *)
Lemma initZmq_accepts_unreachable : ~ fails_when_unreachable.
Proof.
  intros H.
  destruct (H {| listening := false; connect_outcome := Fulfilled |} globals0 eq_refl)
    as [e He].
  discriminate He.
Qed.

(** C9, as the code has it.  [initZmq] stores the new socket and asks it
    to connect to [ZMQ_ENDPOINT], and that is all it does with the socket:
    it sends no ping and makes no check of its own that anything listens.
    It fails exactly when [connect] fails, and then with the same error:
    nothing in it catches the error.  When [connect] returns normally so
    does [initZmq], whether or not the endpoint can be reached. *)
Theorem initZmq_propagates (e : string) (g : Globals) :
  result (initZmq (Rejected e) g) = Raise e /\
  effects (initZmq (Rejected e) g) = [ZmqConnect ZMQ_ENDPOINT] /\
  zmqSock (globals (initZmq (Rejected e) g)) = Some Request /\
  result (initZmq Fulfilled g) = Ok tt /\
  (forall c,
     result (initZmq_in c g) =
       match connect_outcome c with Fulfilled => Ok tt | Rejected e' => Raise e' end) /\
  (forall c, effects (initZmq_in c g) = [ZmqConnect ZMQ_ENDPOINT]) /\
  (forall c, zmqSock (globals (initZmq_in c g)) = Some Request).
Proof.
  repeat split; intros [l [|e']]; reflexivity.
Qed.

(** The claim as worded fails when the request goes out and no reply
    comes back: the call stays suspended on [receive]. *)
Lemma setMusicVolume_can_hang : ~ always_completes.
Proof.
  intros H. specialize (H connected_globals MUTE [Fulfilled]).
  cbv in H. discriminate.
Qed.

(** C8, as the code has it.  A call of [setMusicVolume] never throws and
    leaves the globals alone.  On an initialised socket it sends exactly
    one command, the text "volume@mus volume <v>", as its first effect.
    If the send fails the call is over at once.  If the send succeeds it
    asks for the reply and is over as soon as [receive] settles, whether
    with a reply, whose content is dropped, or with an error.  While
    [receive] has not settled the call stays suspended there. *)
Theorem setMusicVolume_never_throws
        (vol : Js.number) (answers : list Settle) (g : Globals) :
  let r := setMusicVolume_call vol answers g in
  let cmd := ZmqSend ("volume@mus volume " ++ Js.toString vol) in
  (exists st, result r = Ok st) /\
  globals r = g /\
  (zmqSock g <> None ->
   filter is_send (effects r) = [cmd] /\ hd_error (effects r) = Some cmd) /\
  (zmqSock g <> None -> forall e rest, answers = Rejected e :: rest ->
   result r = Ok Returned /\ effects r = [cmd]) /\
  (zmqSock g <> None -> forall a rest, answers = Fulfilled :: a :: rest ->
   result r = Ok Returned /\ effects r = [cmd; ZmqReceive]) /\
  (zmqSock g <> None -> answers = [Fulfilled] ->
   result r = Ok (Awaiting AtReceive) /\ effects r = [cmd; ZmqReceive]).
Proof.
  destruct g as [pm pp [z|] st].
  - destruct answers as [|[|e] [|[|e'] rest]]; cbn;
      repeat rewrite drive_returned; cbn;
      repeat split; intros; try discriminate; eauto;
      match goal with H : _ :: _ = _ :: _ |- _ => inversion H; subst end;
      reflexivity.
  - destruct answers; cbn; repeat split; intros; eauto; congruence.
Qed.

Lemma setMusicVolume_never_throws_witness :
  (result (setMusicVolume_call MUTE [Rejected "EAGAIN"] connected_globals) = Ok Returned /\
   effects (setMusicVolume_call MUTE [Rejected "EAGAIN"] connected_globals)
   = [ZmqSend "volume@mus volume 0"]) /\
  (result (setMusicVolume_call MUSIC_GAIN_ACTIVE [Fulfilled; Rejected "ETIMEDOUT"]
             connected_globals) = Ok Returned /\
   effects (setMusicVolume_call MUSIC_GAIN_ACTIVE [Fulfilled; Rejected "ETIMEDOUT"]
              connected_globals)
   = [ZmqSend "volume@mus volume 0.35"; ZmqReceive]).
Proof.
  split.
  - apply (setMusicVolume_never_throws MUTE [Rejected "EAGAIN"] connected_globals)
      with (e := "EAGAIN") (rest := @nil Settle); [discriminate | reflexivity].
  - apply (setMusicVolume_never_throws MUSIC_GAIN_ACTIVE
             [Fulfilled; Rejected "ETIMEDOUT"] connected_globals)
      with (a := Rejected "ETIMEDOUT") (rest := @nil Settle);
      [discriminate | reflexivity].
Defined.

End ControlFacts.

(** ** The poll loop *)

Section LoopFacts.
Import Control Loop.
Import Probe (no_stdout_error).


Lemma run_app (a b : list Event) (s : State) :
  run (a ++ b) s = match run a s with Some s1 => run b s1 | None => None end.
Proof.
  revert s; induction a as [|e a IH]; intros s; simpl; [reflexivity|].
  destruct (step e s); [apply IH | reflexivity].
Qed.

Lemma lookup_remove_single (V : Type) (id id' : TimerId) (v v' : V) :
  lookup id' [(id, v)] = Some v' -> remove id' [(id, v)] = [].
Proof.
  unfold remove; simpl. destruct (id =? id')%N; [reflexivity | discriminate].
Qed.


(** Case analysis on an enabled turn: split on whatever the code
    branches on until the successor state is explicit. *)
Ltac crunch H :=
  repeat (unfold step, iteration, on_timer, resume_detached, after_volume, exec,
            setMusicVolume, setMusicVolume_resume, try_catch, try_, bind, ret, get,
            emit, await, throw, end_iteration, clearTimeout, setTimeout in H;
          cbn in H;
          match type of H with
          | context [andb ?x _] => is_var x; destruct x
          | context [negb ?x] => is_var x; destruct x
          | context [match ?x with _ => _ end] =>
              first [ is_var x; destruct x
                    | match x with
                      | zmqSock _ => let Z := fresh "Z" in destruct x eqn:Z
                      | lookup _ _ => let E := fresh "E" in destruct x eqn:E
                      | (_ <=? _)%N => let E := fresh "E" in destruct x eqn:E
                      end ]
          | context [if ?x then _ else _] =>
              first [ is_var x; destruct x
                    | match x with
                      | (_ <=? _)%N => let E := fresh "E" in destruct x eqn:E
                      end ]
          end);
  try discriminate H.

Ltac step_cases s H :=
  destruct s as [? ? ? ? ? ? ? ? ?]; crunch H;
  injection H as H; subst.
  

Ltac wf_done :=
  first [ left; reflexivity
        | right; do 2 eexists; repeat split; first [reflexivity | intros; discriminate] ].

Lemma wf_step (e : Event) (s s' : State) :
  wf s -> step e s = Some s' -> wf s'.
Proof.
  intros W H. step_cases s H.
  all: unfold wf in *; cbn in *.
  all: destruct W as [W | (i & d & W & Hs & Hc & Hp)]; subst; cbn in *;
    try discriminate; try (exfalso; eapply Hp; reflexivity);
    try (injection Hs as <-);
    try match goal with E : context [(?a =? ?b)%N] |- _ => destruct (a =? b)%N eqn:?; try discriminate end;
    rewrite ?N.eqb_refl; cbn; try wf_done.
Qed.

Lemma step_now (e : Event) (s s' : State) :
  step e s = Some s' -> now s' = (now s + elapsed [e])%N.
Proof.
  intros H. step_cases s H; cbn; lia.
Qed.

Lemma step_glob (e : Event) (s s' : State) :
  step e s = Some s' -> glob s' = glob s.
Proof.
  intros H. step_cases s H; reflexivity.
Qed.

Lemma lookup_In (V : Type) (id : TimerId) (v : V) (l : list (TimerId * V)) :
  lookup id l = Some v -> In (id, v) l.
Proof.
  induction l as [|[k w] l IH]; simpl; [discriminate|].
  destruct (k =? id)%N eqn:E.
  - apply N.eqb_eq in E. intros [= ->]. subst. now left.
  - intros H. right. now apply IH.
Qed.

Lemma step_timers (e : Event) (s s' : State) :
  wf s -> step e s = Some s' ->
  timers s' = [] \/
  (timers s' = timers s /\ is_reading true e = false) \/
  (e = ProbeResolved false /\ camWasActive s = true /\
   timers s' = [(nextTimer s, (now s + DEBOUNCE_MS)%N)]).
Proof.
  intros W H. step_cases s H.
  all: unfold wf in *; cbn in *.
  all: destruct W as [W | (i & d & W & Hs & Hc & Hp)]; subst; cbn in *;
    try discriminate; try (exfalso; eapply Hp; reflexivity);
    try (injection Hs as <-);
    try match goal with E : context [(?a =? ?b)%N] |- _ => destruct (a =? b)%N eqn:?; try discriminate end;
    rewrite ?N.eqb_refl; cbn; auto.
Qed.

Lemma step_commands (e : Event) (s s' : State) :
  step e s = Some s' ->
  commands (trace s') =
    commands (trace s) ++
    match zmqSock (glob s) with None => [] | Some _ => detected e s end.
Proof.
  intros H. step_cases s H; unfold commands, tag in *; cbn in *;
    rewrite ?filter_app; cbn; rewrite ?app_nil_r;
    try match goal with Z : zmqSock _ = _ |- _ => rewrite Z end;
    rewrite ?app_nil_r; try reflexivity;
    destruct (zmqSock _); rewrite ?app_nil_r; reflexivity.
Qed.

(** Between polls that read false the loop stays in its inactive state. *)
Lemma step_inactive (e : Event) (s s' : State) :
  camWasActive s = false -> (forall p, pc s <> AtVolume p) ->
  is_reading true e = false -> step e s = Some s' ->
  camWasActive s' = false /\ (forall p, pc s' <> AtVolume p).
Proof.
  intros C P R H. step_cases s H; cbn in *; try discriminate;
    try (exfalso; eapply P; reflexivity); split; try reflexivity; intros; discriminate.
Qed.

Lemma step_active (e : Event) (s s' : State) :
  settled_active s -> is_reading false e = false -> step e s = Some s' ->
  settled_active s' /\ commands (trace s') = commands (trace s).
Proof.
  intros [T Q] R H. rewrite (@step_commands _ _ _ H).
  step_cases s H; unfold settled_active; cbn in *; subst; try discriminate;
    try (destruct Q as [Q | [p' Q]]; discriminate).
  all: repeat split; eauto; try (destruct (zmqSock _)); now rewrite ?app_nil_r.
Qed.

Lemma run_invariant (P : State -> Prop) :
  (forall e s s', P s -> step e s = Some s' -> P s') ->
  forall evs s s', P s -> run evs s = Some s' -> P s'.
Proof.
  intros Hstep evs; induction evs as [|e evs IH]; intros s s' Hs H; simpl in H.
  - now injection H as <-.
  - destruct (step e s) eqn:E; [|discriminate]. eauto.
Qed.

Lemma reachable_wf (s : State) : reachable s -> wf s.
Proof.
  intros (g & t0 & evs & H).
  eapply (run_invariant wf); [intros; eapply wf_step; eauto | | exact H].
  now left.
Qed.

Lemma reachable_step (e : Event) (s s' : State) :
  reachable s -> step e s = Some s' -> reachable s'.
Proof.
  intros (g & t0 & evs & H) E. exists g, t0, (evs ++ [e]).
  rewrite run_app, H. simpl. now rewrite E.
Qed.

Lemma reachable_run (evs : list Event) (s s' : State) :
  reachable s -> run evs s = Some s' -> reachable s'.
Proof.
  intros R H. eapply (run_invariant reachable); eauto using reachable_step.
Qed.

Lemma run_glob (evs : list Event) (s s' : State) :
  run evs s = Some s' -> glob s' = glob s.
Proof.
  intros H.
  apply (run_invariant (fun x => glob x = glob s)) with (evs := evs) (s := s);
    [|reflexivity|assumption].
  intros e a b Ha Hb. now rewrite (@step_glob _ _ _ Hb).
Qed.

Lemma elapsed_app (a b : list Event) : elapsed (a ++ b) = (elapsed a + elapsed b)%N.
Proof.
  induction a as [|e a IH]; simpl; [reflexivity|].
  destruct e; rewrite IH; lia.
Qed.

Lemma no_reading_app (v : bool) (a b : list Event) :
  no_reading v a -> no_reading v b -> no_reading v (a ++ b).
Proof. unfold no_reading. intros Ha Hb. now rewrite forallb_app, Ha, Hb. Qed.

Lemma run_snoc (evs : list Event) (e : Event) (s s' : State) :
  run (evs ++ [e]) s = Some s' ->
  exists s1, run evs s = Some s1 /\ step e s1 = Some s'.
Proof.
  rewrite run_app. destruct (run evs s) as [s1|]; [|discriminate].
  simpl. destruct (step e s1) eqn:E; [|discriminate].
  intros [= <-]. eauto.
Qed.

(** Where a pending timeout comes from: a false reading that followed a
    true one, with no true reading since, and [DEBOUNCE_MS] to wait from
    that reading on. *)
Lemma pending_history (g : Globals) (t0 : N) (evs : list Event) (s : State) :
  run evs (loop_init g t0) = Some s ->
  forall id due, In (id, due) (timers s) ->
  exists a b sa,
    evs = a ++ ProbeResolved false :: b /\
    run a (loop_init g t0) = Some sa /\
    camWasActive sa = true /\
    no_reading true b /\
    due = (now sa + DEBOUNCE_MS)%N /\
    now s = (now sa + elapsed b)%N.
Proof.
  revert s; induction evs as [|e evs IH] using rev_ind; intros s H id due Hin.
  - injection H as <-. destruct Hin.
  - destruct (@run_snoc _ _ _ _ H) as (s1 & H1 & E).
    assert (W : wf s1) by (apply reachable_wf; now exists g, t0, evs).
    pose proof (@step_now _ _ _ E) as Hnow.
    destruct (@step_timers _ _ _ W E) as [T | [[T R] | (-> & C & T)]].
    + rewrite T in Hin. destruct Hin.
    + rewrite T in Hin.
      destruct (IH _ H1 _ _ Hin) as (a & b & sa & -> & Ha & Hc & Hb & Hd & Hn).
      exists a, (b ++ [e]), sa. repeat split; auto.
      * now rewrite <- app_assoc.
      * apply no_reading_app; [assumption|]. unfold no_reading; simpl. now rewrite R.
      * rewrite elapsed_app. lia.
    + rewrite T in Hin. destruct Hin as [[= <- <-]|[]].
      exists evs, [], s1. simpl in Hnow. repeat split; auto; simpl; lia.
Qed.

Lemma timer_fired_due (id : TimerId) (s s' : State) :
  step (TimerFired id) s = Some s' ->
  exists due, In (id, due) (timers s) /\ (due <= now s)%N.
Proof.
  unfold step. destruct (pc s); try discriminate;
    (destruct (lookup id (timers s)) as [due|] eqn:E; [|discriminate]);
    (destruct (due <=? now s)%N eqn:L; [|discriminate]);
    intros _; exists due; split; auto using lookup_In; now apply N.leb_le.
Qed.

Lemma In_awaiting_main (s : State) :
  In Main (awaiting s) -> exists p, pc s = AtVolume p.
Proof.
  unfold awaiting. intros H. apply in_app_or in H. destruct H as [H|H].
  - destruct (pc s) as [|p| |]; simpl in H; try contradiction; eauto.
  - apply in_map_iff in H. destruct H as (x & Hx & _). discriminate.
Qed.

Lemma detected_entries (e : Event) (s s' : State) (x : Entry) :
  wf s -> step e s = Some s' -> In x (detected e s) ->
  ~ In Main (awaiting_reply x) /\
  ((who x = Main /\ sends MUSIC_GAIN_ACTIVE x) \/
   (exists id, who x = Timer id /\ sends MUTE x)).
Proof.
  intros W H Hin. destruct e as [dt|[|]|c r|id| |err]; simpl in Hin; try contradiction.
  - destruct (camWasActive s); [destruct Hin|].
    destruct Hin as [<-|[]]. split; [|left; split; reflexivity].
    cbn. intros Hm. apply In_awaiting_main in Hm. destruct Hm as [p Hp].
    unfold step in H. rewrite Hp in H. discriminate.
  - destruct Hin as [<-|[]]. split; [|right; exists id; split; reflexivity].
    cbn. intros Hm. apply In_awaiting_main in Hm. destruct Hm as [p Hp].
    destruct (@timer_fired_due _ _ _ H) as (due & Hd & _).
    destruct W as [W | (i & d & W & _ & _ & Hp')]; [rewrite W in Hd; destruct Hd|].
    now apply (Hp' p).
Qed.

Lemma reachable_channel_ok (s : State) : reachable s -> channel_ok s.
Proof.
  intros (g & t0 & evs & H). revert s H.
  induction evs as [|e evs IH] using rev_ind; intros s H.
  - injection H as <-. intros x [].
  - destruct (@run_snoc _ _ _ _ H) as (s1 & H1 & E).
    assert (W : wf s1) by (apply reachable_wf; now exists g, t0, evs).
    intros x Hx. rewrite (@step_commands _ _ _ E) in Hx.
    apply in_app_or in Hx. destruct Hx as [Hx|Hx]; [now apply (IH _ H1)|].
    destruct (zmqSock (glob s1)); [|destruct Hx].
    eapply detected_entries; eauto.
Qed.

Lemma no_reading_cons (v : bool) (e : Event) (evs : list Event) :
  no_reading v (e :: evs) -> is_reading v e = false /\ no_reading v evs.
Proof.
  unfold no_reading; simpl. intros H. apply andb_true_iff in H.
  destruct H as [H1 H2]. split; [|assumption]. now destruct (is_reading v e).
Qed.

Lemma inactive_run (pre : list Event) (s s1 : State) :
  wf s -> camWasActive s = false -> (forall p, pc s <> AtVolume p) ->
  no_reading true pre -> run pre s = Some s1 ->
  wf s1 /\ camWasActive s1 = false /\ (forall p, pc s1 <> AtVolume p) /\
  exists muted,
    commands (trace s1) = commands (trace s) ++ muted /\
    Forall (sends MUTE) muted.
Proof.
  revert s; induction pre as [|e pre IH]; intros s W C P R H; simpl in H.
  - injection H as <-. repeat split; auto. exists []. now rewrite app_nil_r.
  - destruct (step e s) as [s2|] eqn:E; [|discriminate].
    destruct (no_reading_cons R) as [Re Rp].
    destruct (@step_inactive _ _ _ C P Re E) as [C2 P2].
    destruct (IH s2 (@wf_step _ _ _ W E) C2 P2 Rp H) as (W1 & C1 & P1 & muted & Hm & Fm).
    repeat split; auto.
    rewrite (@step_commands _ _ _ E) in Hm.
    eexists. rewrite Hm, <- app_assoc. split; [reflexivity|].
    apply Forall_app. split; [|assumption].
    destruct (zmqSock (glob s)); [|constructor].
    destruct e as [dt|[|]|c r|id| |err]; simpl in *; try discriminate; repeat constructor.
Qed.

Lemma active_run (post : list Event) (s s' : State) :
  settled_active s -> no_reading false post -> run post s = Some s' ->
  commands (trace s') = commands (trace s).
Proof.
  revert s; induction post as [|e post IH]; intros s Q R H; simpl in H.
  - now injection H as <-.
  - destruct (step e s) as [s2|] eqn:E; [|discriminate].
    destruct (no_reading_cons R) as [Re Rp].
    destruct (@step_active _ _ _ Q Re E) as [Q2 T2].
    rewrite (IH s2 Q2 Rp H). exact T2.
Qed.

Lemma step_rise (s s' : State) :
  wf s -> camWasActive s = false -> zmqSock (glob s) <> None ->
  step (ProbeResolved true) s = Some s' ->
  settled_active s' /\
  commands (trace s') =
    commands (trace s) ++ [tag s Main (ZmqSend (command MUSIC_GAIN_ACTIVE))].
Proof.
  intros W C Z H. rewrite (@step_commands _ _ _ H).
  destruct (zmqSock (glob s)) eqn:Zs; [|congruence]. simpl. rewrite C.
  split; [|reflexivity].
  destruct (@step_timers _ _ _ W H) as [T | [[T R] | (D & _)]]; try discriminate.
  split; [assumption|]. right.
  clear W T. step_cases s H; cbn in *; try discriminate; eauto; congruence.
Qed.

(** X1.  Take the loop between polls with the last reading false and the
    control socket set.  Let any events follow in which no reading is
    true, then the first true reading, then any events in which every
    reading is true.  Up to the true reading only mutes from timeout
    callbacks can have been sent; the turn of the true reading sends
    exactly one command, the active gain; nothing is sent after it. *)
Theorem active_on_first_true (s : State) (pre post : list Event) (s' : State) :
  reachable s -> camWasActive s = false -> (forall p, pc s <> AtVolume p) ->
  zmqSock (glob s) <> None ->
  no_reading true pre -> no_reading false post ->
  run (pre ++ ProbeResolved true :: post) s = Some s' ->
  exists s1 s2 muted,
    run pre s = Some s1 /\
    step (ProbeResolved true) s1 = Some s2 /\
    run post s2 = Some s' /\
    commands (trace s1) = commands (trace s) ++ muted /\
    Forall (sends MUTE) muted /\
    commands (trace s2) =
      commands (trace s1) ++ [tag s1 Main (ZmqSend (command MUSIC_GAIN_ACTIVE))] /\
    commands (trace s') = commands (trace s2).
Proof.
  intros Rs C P Z Rpre Rpost H.
  rewrite run_app in H. destruct (run pre s) as [s1|] eqn:H1; [|discriminate].
  simpl in H. destruct (step (ProbeResolved true) s1) as [s2|] eqn:E; [|discriminate].
  destruct (@inactive_run _ _ _ (reachable_wf Rs) C P Rpre H1)
    as (W1 & C1 & P1 & muted & Hm & Fm).
  assert (Z1 : zmqSock (glob s1) <> None) by now rewrite (@run_glob _ _ _ H1).
  destruct (@step_rise _ _ W1 C1 Z1 E) as [Q2 T2].
  exists s1, s2, muted. repeat split; auto.
  exact (@active_run _ _ _ Q2 Rpost H).
Qed.

Lemma active_on_first_true_witness :
  exists s1 s2 muted,
    run scenario_FF (loop_init connected_globals 0) = Some s1 /\
    step (ProbeResolved true) s1 = Some s2 /\
    run scenario_TT s2
      = Some (final (scenario_FF ++ ProbeResolved true :: scenario_TT)
                (loop_init connected_globals 0)) /\
    commands (trace s1) = commands (trace (loop_init connected_globals 0)) ++ muted /\
    Forall (sends MUTE) muted /\
    commands (trace s2) =
      commands (trace s1) ++ [tag s1 Main (ZmqSend (command MUSIC_GAIN_ACTIVE))] /\
    commands (trace (final (scenario_FF ++ ProbeResolved true :: scenario_TT)
                       (loop_init connected_globals 0)))
    = commands (trace s2).
Proof.
  refine (@active_on_first_true (loop_init connected_globals 0) scenario_FF scenario_TT
            (final (scenario_FF ++ ProbeResolved true :: scenario_TT)
               (loop_init connected_globals 0)) _ _ _ _ _ _ _).
  - exists connected_globals, 0%N, (@nil Event). reflexivity.
  - reflexivity.
  - intros p. discriminate.
  - discriminate.
  - vm_compute. reflexivity.
  - vm_compute. reflexivity.
  - vm_compute. reflexivity.
Defined.

Lemma step_fall (s : State) :
  wf s -> pc s = AtProbe -> camWasActive s = true ->
  exists s',
    step (ProbeResolved false) s = Some s' /\
    trace s' = trace s /\
    camWasActive s' = false /\
    stopTimer s' = Some (nextTimer s) /\
    nextTimer s' = (nextTimer s + 1)%N /\
    timers s' = [(nextTimer s, (now s + DEBOUNCE_MS)%N)].
Proof.
  intros W P C. destruct s as [g cam st p tm nt det nw tr]; cbn in *; subst.
  eexists. split; [reflexivity|].
  destruct W as [W | (i & d & _ & _ & Hc & _)]; [|discriminate]. cbn in W. subst tm.
  destruct st; cbn; repeat split.
Qed.

Lemma command_mute_active : command MUTE <> command MUSIC_GAIN_ACTIVE.
Proof. discriminate. Qed.

(** X2.  In every state the loop reaches from its start: a false reading
    that follows a true one sends nothing and leaves one timeout pending,
    due [DEBOUNCE_MS] later; every mute on the control channel was sent by
    a timeout callback; and whenever a timeout runs, it was set by a false
    reading that followed a true one, no true reading has been taken since,
    and at least [DEBOUNCE_MS] have passed since that reading.  On a set
    socket the callback then sends the mute. *)
Theorem mute_only_after_debounce
        (g : Globals) (t0 : N) (evs : list Event) (s : State) :
  run evs (loop_init g t0) = Some s ->
  (pc s = AtProbe -> camWasActive s = true ->
   exists s',
     step (ProbeResolved false) s = Some s' /\
     trace s' = trace s /\
     timers s' = [(nextTimer s, (now s + DEBOUNCE_MS)%N)]) /\
  (forall x, In x (commands (trace s)) -> sends MUTE x -> exists id, who x = Timer id) /\
  (forall id s',
     step (TimerFired id) s = Some s' ->
     (exists a b sa,
        evs = a ++ ProbeResolved false :: b /\
        run a (loop_init g t0) = Some sa /\
        camWasActive sa = true /\
        no_reading true b /\
        (DEBOUNCE_MS <= elapsed b)%N) /\
     (zmqSock (glob s) <> None ->
      commands (trace s') =
        commands (trace s) ++ [tag s (Timer id) (ZmqSend (command MUTE))])).
Proof.
  intros H.
  assert (R : reachable s) by (now exists g, t0, evs).
  split; [|split].
  - intros P C. destruct (step_fall (reachable_wf R) P C) as (s' & E & T & _ & _ & _ & Tm).
    eauto.
  - intros x Hx Hs. destruct (reachable_channel_ok R _ Hx) as [_ [[_ Ha] | [id [Hw _]]]].
    + exfalso. apply command_mute_active. unfold sends in *. congruence.
    + eauto.
  - intros id s' E. split.
    + destruct (@timer_fired_due _ _ _ E) as (due & Hin & Hdue).
      destruct (@pending_history _ _ _ _ H _ _ Hin) as (a & b & sa & Ha & Hr & Hc & Hb & Hd & Hn).
      exists a, b, sa. repeat split; auto. lia.
    + intros Z. rewrite (@step_commands _ _ _ E).
      destruct (zmqSock (glob s)); [reflexivity | congruence].
Qed.

Lemma mute_only_after_debounce_witness :
  exists a b sa,
    scenario_TTFF = a ++ ProbeResolved false :: b /\
    run a (loop_init connected_globals 0) = Some sa /\
    camWasActive sa = true /\
    no_reading true b /\
    (DEBOUNCE_MS <= elapsed b)%N.
Proof.
  refine (proj1 (proj2 (proj2
            (@mute_only_after_debounce connected_globals 0 scenario_TTFF
               (final scenario_TTFF (loop_init connected_globals 0)) _))
            0%N
            (final (scenario_TTFF ++ [TimerFired 0%N]) (loop_init connected_globals 0))
            _)).
  - vm_compute. reflexivity.
  - vm_compute. reflexivity.
Defined.

Lemma step_nextTimer (e : Event) (s s' : State) :
  step e s = Some s' -> (nextTimer s <= nextTimer s')%N.
Proof. intros H. step_cases s H; cbn; lia. Qed.

Lemma fresh_step (e : Event) (s s' : State) :
  wf s -> fresh s -> step e s = Some s' -> fresh s'.
Proof.
  intros W F H id due Hin.
  pose proof (@step_nextTimer _ _ _ H) as Hn.
  destruct (@step_timers _ _ _ W H) as [T | [[T _] | (-> & C & T)]]; rewrite T in Hin.
  - destruct Hin.
  - specialize (F _ _ Hin). lia.
  - destruct Hin as [Heq|[]]. injection Heq as Hid _. subst id.
    assert (P : pc s = AtProbe).
    { unfold step in H. destruct (pc s); try discriminate; reflexivity. }
    destruct (step_fall W P C) as (s2 & E & _ & _ & _ & N2 & _).
    rewrite H in E. injection E as <-. lia.
Qed.

(** Once a timeout id is neither pending nor still to be handed out, it
    never becomes pending again. *)
Lemma gone_step (id : TimerId) (e : Event) (s s' : State) :
  wf s -> (id < nextTimer s)%N -> (forall due, ~ In (id, due) (timers s)) ->
  step e s = Some s' ->
  (id < nextTimer s')%N /\ (forall due, ~ In (id, due) (timers s')).
Proof.
  intros W L G H.
  pose proof (@step_nextTimer _ _ _ H) as Hn. split; [lia|].
  intros due Hin.
  destruct (@step_timers _ _ _ W H) as [T | [[T _] | (_ & _ & T)]]; rewrite T in Hin.
  - destruct Hin.
  - now apply (G due).
  - destruct Hin as [Heq|[]]. injection Heq as Hid _. lia.
Qed.

Lemma gone_run (id : TimerId) (evs : list Event) (s s' : State) :
  wf s -> (id < nextTimer s)%N -> (forall due, ~ In (id, due) (timers s)) ->
  run evs s = Some s' ->
  forall due, ~ In (id, due) (timers s').
Proof.
  revert s; induction evs as [|e evs IH]; intros s W L G H; simpl in H.
  - now injection H as <-.
  - destruct (step e s) as [s2|] eqn:E; [|discriminate].
    destruct (@gone_step id _ _ _ W L G E) as [L2 G2].
    exact (IH s2 (@wf_step _ _ _ W E) L2 G2 H).
Qed.

Lemma reachable_fresh (s : State) : reachable s -> fresh s.
Proof.
  intros (g & t0 & evs & H). revert s H.
  induction evs as [|e evs IH] using rev_ind; intros s H.
  - injection H as <-. intros id due [].
  - destruct (@run_snoc _ _ _ _ H) as (s1 & H1 & E).
    eapply fresh_step; eauto. apply reachable_wf. now exists g, t0, evs.
Qed.

(** X3.  A true reading that finds a timeout pending removes it, so that
    its callback never runs, whatever happens later; and on a set socket
    that same turn sends one command, the active gain again. *)
Theorem true_reading_cancels_mute (s s' : State) :
  reachable s -> timers s <> [] -> zmqSock (glob s) <> None ->
  step (ProbeResolved true) s = Some s' ->
  timers s' = [] /\
  commands (trace s') =
    commands (trace s) ++ [tag s Main (ZmqSend (command MUSIC_GAIN_ACTIVE))] /\
  (forall id due, In (id, due) (timers s) ->
   forall evs s'', run evs s' = Some s'' -> step (TimerFired id) s'' = None).
Proof.
  intros R T Z H.
  pose proof (reachable_wf R) as W.
  assert (C : camWasActive s = false).
  { destruct W as [W | (i & d & _ & _ & C & _)]; [contradiction | exact C]. }
  destruct (@step_rise _ _ W C Z H) as [[T' _] Hc].
  repeat split; auto.
  intros id due Hin evs s'' Hrun.
  destruct (step (TimerFired id) s'') as [s3|] eqn:E; [exfalso | reflexivity].
  destruct (@timer_fired_due _ _ _ E) as (due' & Hin' & _).
  refine (@gone_run id evs s' s'' (@wf_step _ _ _ W H) _ _ Hrun due' Hin').
  - pose proof (@step_nextTimer _ _ _ H). pose proof (reachable_fresh R _ _ Hin). lia.
  - intros d. rewrite T'. intros [].
Qed.

Lemma true_reading_cancels_mute_witness :
  timers (final scenario_TFT (loop_init connected_globals 0)) = [] /\
  commands (trace (final scenario_TFT (loop_init connected_globals 0))) =
    commands (trace (final scenario_TF (loop_init connected_globals 0)))
    ++ [tag (final scenario_TF (loop_init connected_globals 0)) Main
          (ZmqSend (command MUSIC_GAIN_ACTIVE))].
Proof.
  refine ((fun H => conj (proj1 H) (proj1 (proj2 H)))
            (@true_reading_cancels_mute
               (final scenario_TF (loop_init connected_globals 0))
               (final scenario_TFT (loop_init connected_globals 0)) _ _ _ _)).
  - exists connected_globals, 0%N, scenario_TF. vm_compute. reflexivity.
  - vm_compute. discriminate.
  - vm_compute. discriminate.
  - vm_compute. reflexivity.
Defined.

Lemma run_commands (evs : list Event) (s s' : State) :
  zmqSock (glob s) <> None -> run evs s = Some s' ->
  commands (trace s') = commands (trace s) ++ detections evs s.
Proof.
  revert s; induction evs as [|e evs IH]; intros s Z H; simpl in *.
  - injection H as <-. now rewrite app_nil_r.
  - destruct (step e s) as [s2|] eqn:E; [|discriminate].
    assert (Z2 : zmqSock (glob s2) <> None) by now rewrite (@step_glob _ _ _ E).
    rewrite (IH s2 Z2 H), (@step_commands _ _ _ E), <- app_assoc.
    destruct (zmqSock (glob s)); [reflexivity | congruence].
Qed.

(** X4.  On a set socket the commands sent during any stretch of events
    are exactly the transitions detected in its turns, in the order of the
    turns: a command is sent in the turn that detects its transition.  And
    no command on the channel was sent while a command of the poll loop was
    still awaiting its reply. *)
Theorem commands_in_detection_order (s : State) (evs : list Event) (s' : State) :
  reachable s -> zmqSock (glob s) <> None -> run evs s = Some s' ->
  commands (trace s') = commands (trace s) ++ detections evs s /\
  (forall x, In x (commands (trace s')) -> ~ In Main (awaiting_reply x)).
Proof.
  intros R Z H. split; [now apply run_commands|].
  intros x Hx. exact (proj1 (reachable_channel_ok (@reachable_run _ _ _ R H) x Hx)).
Qed.

Lemma commands_in_detection_order_witness :
  commands (trace (final scenario_overlap (loop_init connected_globals 0))) =
    commands (trace (loop_init connected_globals 0))
    ++ detections scenario_overlap (loop_init connected_globals 0).
Proof.
  refine (proj1 (@commands_in_detection_order (loop_init connected_globals 0)
                   scenario_overlap
                   (final scenario_overlap (loop_init connected_globals 0)) _ _ _)).
  - exists connected_globals, 0%N, (@nil Event). reflexivity.
  - discriminate.
  - vm_compute. reflexivity.
Defined.

(** X5.  In every reachable state at most one timeout is pending; a
    pending timeout is the one [stopTimer] holds, and while it is pending
    the last reading is false and the loop is not waiting on a command of
    its own. *)
Theorem one_pending_timeout (s : State) :
  reachable s ->
  (List.length (timers s) <= 1)%nat /\
  (forall id due, In (id, due) (timers s) ->
   stopTimer s = Some id /\ camWasActive s = false /\ forall p, pc s <> AtVolume p).
Proof.
  intros R. destruct (reachable_wf R) as [W | (i & d & W & Hs & Hc & Hp)]; rewrite W.
  - split; [simpl; lia | intros id due []].
  - split; [simpl; lia|]. intros id due [Heq|[]]. injection Heq as <- _. auto.
Qed.

Lemma one_pending_timeout_witness :
  (List.length (timers (final scenario_TF (loop_init connected_globals 0))) <= 1)%nat /\
  stopTimer (final scenario_TF (loop_init connected_globals 0)) = Some 0%N.
Proof.
  refine ((fun H => conj (proj1 H) (proj1 (proj2 H 0%N 450%N _)))
            (@one_pending_timeout (final scenario_TF (loop_init connected_globals 0)) _)).
  - vm_compute. left. reflexivity.
  - exists connected_globals, 0%N, scenario_TF. vm_compute. reflexivity.
Defined.

Lemma step_crash (e : Event) (s s' : State) (err : string) :
  step e s = Some s' -> pc s' = Crashed err ->
  e = ProbeRejected err /\ pc s = AtProbe /\ trace s' = trace s.
Proof.
  intros H C. step_cases s H; cbn in *; try discriminate;
    injection C as ->; repeat split.
Qed.

Lemma crashed_is_final (s : State) (err : string) (e : Event) :
  pc s = Crashed err -> step e s = None.
Proof. intros H. unfold step. rewrite H. now destruct e. Qed.

(** X6.  The one exception that can leave the poll loop is a rejection of
    the promise of [isWebcamInUse] at line 252.  In a run in which the
    probe is never rejected [main] is never rejected, however the sends
    and the receives settle and whatever timeouts run.  When [main] has
    been rejected, the last event was the probe being rejected with that
    error while the loop awaited it; nothing was sent in that turn, and no
    turn of the loop follows.  And whenever the loop awaits the probe, a
    rejection of the probe does reject [main]. *)
Theorem loop_crashes_only_on_probe
        (g : Globals) (t0 : N) (evs : list Event) (s : State) :
  run evs (loop_init g t0) = Some s ->
  (forallb (fun e => negb (is_probe_rejected e)) evs = true ->
   forall err, pc s <> Crashed err) /\
  (forall err, pc s = Crashed err ->
   exists pre s0,
     evs = pre ++ [ProbeRejected err] /\
     run pre (loop_init g t0) = Some s0 /\
     pc s0 = AtProbe /\ trace s = trace s0 /\
     forall e, step e s = None) /\
  (pc s = AtProbe ->
   forall err, exists s', step (ProbeRejected err) s = Some s' /\ pc s' = Crashed err).
Proof.
  intros H.
  assert (P2 : forall err, pc s = Crashed err ->
               exists pre s0,
                 evs = pre ++ [ProbeRejected err] /\
                 run pre (loop_init g t0) = Some s0 /\
                 pc s0 = AtProbe /\ trace s = trace s0 /\
                 forall e, step e s = None).
  { intros err C. destruct evs as [|e0 evs0] using rev_ind.
    - injection H as <-. discriminate C.
    - destruct (@run_snoc _ _ _ _ H) as (s1 & H1 & E).
      destruct (@step_crash _ _ _ _ E C) as (-> & P & T).
      exists evs0, s1. repeat split; auto.
      intros e. exact (@crashed_is_final _ _ e C). }
  split; [|split].
  - intros F err C. destruct (P2 err C) as (pre & s0 & -> & _).
    rewrite forallb_app in F. simpl in F. rewrite andb_false_r in F. discriminate.
  - exact P2.
  - intros P err. exists (set_pc (Crashed err) s). unfold step. rewrite P. auto.
Qed.

Lemma loop_crashes_only_on_probe_witness :
  pc (final (scenario_TF ++ [ProbeResolved true; Settled Main (Rejected "EFSM")])
        (loop_init connected_globals 0)) <> Crashed "EFSM" /\
  (exists s',
     step (ProbeRejected no_stdout_error)
       (final scenario_TF (loop_init connected_globals 0)) = Some s' /\
     pc s' = Crashed no_stdout_error).
Proof.
  split.
  - refine (proj1 (@loop_crashes_only_on_probe connected_globals 0
                     (scenario_TF ++ [ProbeResolved true; Settled Main (Rejected "EFSM")])
                     _ _) _ "EFSM").
    + vm_compute. reflexivity.
    + vm_compute. reflexivity.
  - refine (proj2 (proj2 (@loop_crashes_only_on_probe connected_globals 0 scenario_TF
                            (final scenario_TF (loop_init connected_globals 0)) _))
              _ no_stdout_error).
    + vm_compute. reflexivity.
    + vm_compute. reflexivity.
Defined.

Lemma settled_at_volume (s : State) (p : SvPoint) :
  wf s -> pc s = AtVolume p -> settled_active s.
Proof.
  intros W P. split; [|eauto].
  destruct W as [W | (i & d & _ & _ & _ & Hp)]; [assumption|]. now destruct (Hp p).
Qed.

(** X7.  When the send of the active command fails, the loop goes on to
    its sleep with the reading recorded as true, and the command is not
    sent again: as long as the readings stay true nothing more is sent. *)
Theorem lost_command_not_retried
        (s s' s'' : State) (err : string) (post : list Event) :
  reachable s -> pc s = AtVolume AtSend ->
  step (Settled Main (Rejected err)) s = Some s' ->
  no_reading false post -> run post s' = Some s'' ->
  camWasActive s' = true /\ pc s' = AtSleep (now s + CAM_POLL_MS)%N /\
  commands (trace s'') = commands (trace s).
Proof.
  intros R P E Rp H.
  destruct (@step_active (Settled Main (Rejected err)) s s'
              (settled_at_volume (reachable_wf R) P) eq_refl E) as [Q T].
  rewrite (@active_run _ _ _ Q Rp H), T.
  clear Q T R H. step_cases s E; cbn in *; try discriminate; auto.
Qed.

Lemma lost_command_not_retried_witness :
  commands (trace (final ([ProbeResolved true; Settled Main (Rejected "EAGAIN")]
                            ++ next_poll ++ [ProbeResolved true] ++ next_poll)
                     (loop_init connected_globals 0)))
  = commands (trace (final [ProbeResolved true] (loop_init connected_globals 0))).
Proof.
  refine (proj2 (proj2
            (@lost_command_not_retried
               (final [ProbeResolved true] (loop_init connected_globals 0))
               (final [ProbeResolved true; Settled Main (Rejected "EAGAIN")]
                  (loop_init connected_globals 0))
               (final ([ProbeResolved true; Settled Main (Rejected "EAGAIN")]
                         ++ next_poll ++ [ProbeResolved true] ++ next_poll)
                  (loop_init connected_globals 0))
               "EAGAIN" (next_poll ++ [ProbeResolved true] ++ next_poll) _ _ _ _ _))).
  - exists connected_globals, 0%N, [ProbeResolved true]. vm_compute. reflexivity.
  - vm_compute. reflexivity.
  - vm_compute. reflexivity.
  - vm_compute. reflexivity.
  - vm_compute. reflexivity.
Defined.

Lemma step_waiting (e : Event) (s s' : State) (p : SvPoint) :
  pc s = AtVolume p -> is_main_settle e = false -> step e s = Some s' ->
  pc s' = AtVolume p /\ is_probe e = false.
Proof.
  intros P M H. step_cases s H; cbn in *; try discriminate; auto.
Qed.

(** X8.  While the loop waits on its own command, nothing but the
    settling of that command moves it: no probe reading is taken until the
    send or the reply settles. *)
Theorem no_poll_while_waiting (s s' : State) (p : SvPoint) (evs : list Event) :
  pc s = AtVolume p ->
  forallb (fun e => negb (is_main_settle e)) evs = true ->
  run evs s = Some s' ->
  pc s' = AtVolume p /\ forallb (fun e => negb (is_probe e)) evs = true.
Proof.
  revert s; induction evs as [|e evs IH]; intros s P M H; simpl in *.
  - injection H as <-. auto.
  - destruct (step e s) as [s2|] eqn:E; [|discriminate].
    apply andb_true_iff in M. destruct M as [Me Mr].
    destruct (@step_waiting e s s2 p P) as [P2 Pe]; auto.
    { now destruct (is_main_settle e). }
    rewrite Pe. simpl. exact (IH s2 P2 Mr H).
Qed.

Lemma no_poll_while_waiting_witness :
  pc (final [ProbeResolved true; Settled Main Fulfilled; Tick 1000%N]
        (loop_init connected_globals 0)) = AtVolume AtReceive.
Proof.
  refine (proj1 (@no_poll_while_waiting
                   (final [ProbeResolved true; Settled Main Fulfilled]
                      (loop_init connected_globals 0))
                   (final [ProbeResolved true; Settled Main Fulfilled; Tick 1000%N]
                      (loop_init connected_globals 0))
                   AtReceive [Tick 1000%N] _ _ _)).
  - vm_compute. reflexivity.
  - reflexivity.
  - vm_compute. reflexivity.
Defined.

Lemma paced_step (t0 : N) (e : Event) (s s' : State) :
  paced t0 s -> step e s = Some s' -> paced t0 s'.
Proof.
  intros [J L] H. unfold paced.
  step_cases s H; cbn in *;
    repeat match goal with E : (_ <=? _)%N = true |- _ => apply N.leb_le in E end;
    unfold CAM_POLL_MS in *; split; lia.
Qed.

Lemma run_now (evs : list Event) (s s' : State) :
  run evs s = Some s' -> now s' = (now s + elapsed evs)%N.
Proof.
  revert s; induction evs as [|e evs IH]; intros s H; simpl in H.
  - injection H as <-. simpl. lia.
  - destruct (step e s) as [s2|] eqn:E; [|discriminate].
    rewrite (IH _ H), (@step_now _ _ _ E).
    change (e :: evs) with ([e] ++ evs). rewrite elapsed_app. lia.
Qed.

(** X9.  Two readings are never taken less than [CAM_POLL_MS] apart:
    between the turn of one reading and the turn of a later one at least
    that much time passes. *)
Theorem polls_spaced (s s' : State) (a b : bool) (mid : list Event) :
  run (ProbeResolved a :: mid ++ [ProbeResolved b]) s = Some s' ->
  (CAM_POLL_MS <= elapsed mid)%N.
Proof.
  intros H. simpl in H.
  destruct (step (ProbeResolved a) s) as [s1|] eqn:E; [|discriminate].
  destruct (@run_snoc _ _ _ _ H) as (s2 & Hmid & E2).
  assert (J1 : paced (now s) s1).
  { clear H Hmid E2. unfold paced. step_cases s E; cbn; unfold CAM_POLL_MS; split; lia. }
  assert (J2 : paced (now s) s2).
  { apply (run_invariant (paced (now s))) with (evs := mid) (s := s1); auto.
    intros; eapply paced_step; eauto. }
  pose proof (@run_now _ _ _ Hmid) as Hn. pose proof (@step_now _ _ _ E) as Hn1.
  simpl in Hn1. destruct J2 as [J2 _].
  unfold step in E2. destruct (pc s2); try discriminate. lia.
Qed.

Lemma polls_spaced_witness : (CAM_POLL_MS <= elapsed (acked ++ next_poll))%N.
Proof.
  refine (@polls_spaced (loop_init connected_globals 0)
            (final (ProbeResolved true :: (acked ++ next_poll) ++ [ProbeResolved true])
               (loop_init connected_globals 0))
            true true (acked ++ next_poll) _).
  vm_compute. reflexivity.
Defined.

(** X10.  Nothing holds a command of the poll loop back while a mute sent
    by a timeout callback is awaiting its reply: a true reading after a
    false one sends the active gain at once, and that command goes out
    with every such mute still outstanding. *)
Theorem active_overlaps_mute (s : State) :
  reachable s -> pc s = AtProbe -> camWasActive s = false ->
  zmqSock (glob s) <> None -> detached s <> [] ->
  exists s' x,
    step (ProbeResolved true) s = Some s' /\
    commands (trace s') = commands (trace s) ++ [x] /\
    sends MUSIC_GAIN_ACTIVE x /\ who x = Main /\
    awaiting_reply x = map (fun t => Timer (fst t)) (detached s) /\
    awaiting_reply x <> [].
Proof.
  intros R P C Z D.
  assert (E : step (ProbeResolved true) s = Some (iteration true s)).
  { unfold step. now rewrite P. }
  destruct (@step_rise _ _ (reachable_wf R) C Z E) as [_ T].
  exists (iteration true s), (tag s Main (ZmqSend (command MUSIC_GAIN_ACTIVE))).
  assert (A : awaiting s = map (fun t => Timer (fst t)) (detached s)).
  { unfold awaiting. now rewrite P. }
  repeat split; auto. cbn. rewrite A. destruct (detached s); [congruence | discriminate].
Qed.

Lemma active_overlaps_mute_witness :
  exists s' x,
    step (ProbeResolved true)
      (final (scenario_TF ++ [Tick 150%N; TimerFired 0%N]) (loop_init connected_globals 0))
    = Some s' /\
    commands (trace s') =
      commands (trace (final (scenario_TF ++ [Tick 150%N; TimerFired 0%N])
                         (loop_init connected_globals 0))) ++ [x] /\
    sends MUSIC_GAIN_ACTIVE x /\ who x = Main /\
    awaiting_reply x =
      map (fun t => Timer (fst t))
        (detached (final (scenario_TF ++ [Tick 150%N; TimerFired 0%N])
                     (loop_init connected_globals 0))) /\
    awaiting_reply x <> [].
Proof.
  refine (@active_overlaps_mute
            (final (scenario_TF ++ [Tick 150%N; TimerFired 0%N])
               (loop_init connected_globals 0)) _ _ _ _ _).
  - exists connected_globals, 0%N, (scenario_TF ++ [Tick 150%N; TimerFired 0%N]).
    vm_compute. reflexivity.
  - vm_compute. reflexivity.
  - vm_compute. reflexivity.
  - vm_compute. discriminate.
  - vm_compute. discriminate.
Defined.

Lemma timer_fired_clears (id : TimerId) (s s' : State) :
  wf s -> step (TimerFired id) s = Some s' -> timers s' = [].
Proof.
  intros W H. step_cases s H; cbn in *.
  all: destruct W as [W | (i & d & W & _)]; cbn in W; subst; cbn in *;
    try discriminate;
    match goal with E : context [(?a =? ?b)%N] |- _ => destruct (a =? b)%N eqn:? end;
    try discriminate; reflexivity.
Qed.

(** X11.  The callback of a timeout runs at most once: after it has run,
    no later turn can run it again. *)
Theorem timeout_runs_once (s s' : State) (id : TimerId) :
  reachable s -> step (TimerFired id) s = Some s' ->
  forall evs s'', run evs s' = Some s'' -> step (TimerFired id) s'' = None.
Proof.
  intros R E evs s'' H.
  pose proof (reachable_wf R) as W.
  destruct (@timer_fired_due _ _ _ E) as (due & Hin & _).
  destruct (step (TimerFired id) s'') as [s3|] eqn:E3; [exfalso | reflexivity].
  destruct (@timer_fired_due _ _ _ E3) as (due' & Hin' & _).
  refine (@gone_run id evs s' s'' (@wf_step _ _ _ W E) _ _ H due' Hin').
  - pose proof (@step_nextTimer _ _ _ E). pose proof (reachable_fresh R _ _ Hin). lia.
  - intros d Hd. rewrite (@timer_fired_clears _ _ _ W E) in Hd. destruct Hd.
Qed.

Lemma timeout_runs_once_witness :
  step (TimerFired 0%N)
    (final (scenario_TTFF ++ [TimerFired 0%N] ++ [ProbeResolved false] ++ next_poll)
       (loop_init connected_globals 0)) = None.
Proof.
  refine (@timeout_runs_once
            (final scenario_TTFF (loop_init connected_globals 0))
            (final (scenario_TTFF ++ [TimerFired 0%N]) (loop_init connected_globals 0))
            0%N _ _ ([ProbeResolved false] ++ next_poll)
            (final (scenario_TTFF ++ [TimerFired 0%N] ++ [ProbeResolved false] ++ next_poll)
               (loop_init connected_globals 0)) _).
  - exists connected_globals, 0%N, scenario_TTFF. vm_compute. reflexivity.
  - vm_compute. reflexivity.
  - vm_compute. reflexivity.
Defined.

(** On the schedule T, F, T the cancelling reading does send a command. *)
Lemma cancel_sends_active : ~ cancel_is_silent.
Proof.
  intros H.
  specialize (H (final scenario_TF (loop_init connected_globals 0))
                (final scenario_TFT (loop_init connected_globals 0))).
  assert (E : commands (trace (final scenario_TFT (loop_init connected_globals 0)))
              = commands (trace (final scenario_TF (loop_init connected_globals 0)))).
  { apply H.
    - exists connected_globals, 0%N, scenario_TF. vm_compute. reflexivity.
    - vm_compute. discriminate.
    - vm_compute. reflexivity. }
  vm_compute in E. discriminate.
Qed.

(** On the schedule in which the timeout runs while the probe is out, the
    active command is sent with the mute still awaiting its reply. *)
Lemma sends_can_overlap : ~ serialized.
Proof.
  intros H.
  specialize (H (final scenario_overlap (loop_init connected_globals 0))
                {| time := 450%N; who := Main; awaiting_reply := [Timer 0%N];
                   what := ZmqSend (command MUSIC_GAIN_ACTIVE) |}).
  assert (E : [Timer 0%N] = @nil Caller).
  { apply H.
    - exists connected_globals, 0%N, scenario_overlap. vm_compute. reflexivity.
    - vm_compute. auto. }
  discriminate.
Qed.

End LoopFacts.

(** ** The answer of the probe *)

Section ProbeAnswer.
Import Js Probe Text.

Lemma lower_space (c : ascii) : is_space c = true -> lower_ascii c = c.
Proof.
  destruct c as [[|] [|] [|] [|] [|] [|] [|] [|]]; cbv; intros H;
    first [reflexivity | discriminate H].
Qed.

Lemma lower_not_space (c : ascii) :
  is_space (lower_ascii c) = false -> is_space c = false.
Proof.
  intros H. destruct (is_space c) eqn:E; [|reflexivity].
  rewrite (lower_space _ E) in H. congruence.
Qed.

Lemma prefix_nil (s : string) : prefix "" s = true.
Proof. now destruct s. Qed.

Lemma prefix_of_nil (p : string) : prefix p "" = true -> p = "".
Proof. destruct p; [reflexivity | discriminate]. Qed.

Lemma includes_prefix (t p : string) : prefix p t = true -> includes t p = true.
Proof. intros H. destruct t; cbn [includes]; now rewrite H. Qed.

Lemma includes_nil (p : string) : p <> "" -> includes "" p = false.
Proof. intros H. destruct p; [congruence | reflexivity]. Qed.

Lemma includes_cons (c : ascii) (t p : string) :
  includes t p = true -> includes (String c t) p = true.
Proof. intros H. cbn [includes]. rewrite H. now destruct (prefix p (String c t)). Qed.

Lemma prefix_trimEnd (p s : string) :
  spaceless p = true -> prefix p (toLowerCase s) = true ->
  prefix p (toLowerCase (trimEnd s)) = true.
Proof.
  revert p; induction s as [|c r IH]; intros p Sp H; [exact H|].
  destruct p as [|x p']; [apply prefix_nil|].
  cbn [toLowerCase prefix] in H. cbn [spaceless] in Sp.
  apply andb_true_iff in Sp. destruct Sp as [Sx Sp].
  destruct (ascii_dec x (lower_ascii c)) as [->|]; [|discriminate].
  apply negb_true_iff in Sx. apply lower_not_space in Sx.
  specialize (IH p' Sp H). cbn [trimEnd].
  destruct (trimEnd r) as [|d r'] eqn:E.
  - rewrite Sx. apply prefix_of_nil in IH. subst p'. cbn.
    now destruct (ascii_dec (lower_ascii c) (lower_ascii c)).
  - cbn [toLowerCase prefix].
    destruct (ascii_dec (lower_ascii c) (lower_ascii c)); [exact IH | congruence].
Qed.

Lemma includes_trimEnd (p s : string) :
  spaceless p = true -> p <> "" ->
  includes (toLowerCase s) p = true -> includes (toLowerCase (trimEnd s)) p = true.
Proof.
  intros Sp Np. induction s as [|c r IH]; intros H; [exact H|].
  cbn [toLowerCase includes] in H.
  destruct (prefix p (String (lower_ascii c) (toLowerCase r))) eqn:E.
  - apply includes_prefix. now apply (prefix_trimEnd p (String c r)).
  - specialize (IH H). cbn [trimEnd].
    destruct (trimEnd r) as [|d r'] eqn:Et.
    + change (toLowerCase "") with "" in IH. rewrite (includes_nil Np) in IH.
      discriminate.
    + cbn [toLowerCase]. now apply includes_cons.
Qed.

Lemma includes_trimStart (p s : string) :
  spaceless p = true -> p <> "" ->
  includes (toLowerCase s) p = true -> includes (toLowerCase (trimStart s)) p = true.
Proof.
  intros Sp Np. induction s as [|c r IH]; intros H; [exact H|].
  cbn [trimStart]. destruct (is_space c) eqn:E; [|exact H].
  apply IH. cbn [toLowerCase includes] in H.
  destruct (prefix p (String (lower_ascii c) (toLowerCase r))) eqn:Ep; [|exact H].
  exfalso. destruct p as [|x p']; [congruence|].
  cbn [prefix] in Ep. cbn [spaceless] in Sp.
  destruct (ascii_dec x (lower_ascii c)) as [->|]; [|discriminate].
  rewrite (lower_space _ E), E in Sp. discriminate.
Qed.

(** The test of line 64 does not depend on the [trim]. *)
Lemma verdict_eq (s : string) : verdict s = includes (toLowerCase s) "true".
Proof.
  unfold verdict. destruct (includes (toLowerCase s) "true") eqn:E.
  - unfold trim. apply includes_trimEnd; [reflexivity | discriminate|].
    apply includes_trimStart; [reflexivity | discriminate | exact E].
  - destruct (includes (toLowerCase (trim s)) "true") eqn:E2; [|reflexivity].
    apply includes_trim in E2. congruence.
Qed.

Lemma first_settle_data (chunks : list string) (e : ChildEvent) (more : list ChildEvent) :
  settles e = true ->
  first_settle (map Data chunks ++ e :: more) = Some e /\
  output_before_settle (map Data chunks ++ e :: more) = text chunks.
Proof.
  intros He. induction chunks as [|d chunks [IH1 IH2]]; simpl.
  - destruct e; [discriminate | auto | auto].
  - rewrite IH2. auto.
Qed.

(** X19.  The answer of the probe.  When [spawn] has handed back a child
    with its streams and the child closes, the promise is resolved to true
    exactly when the text it wrote contains the word true in some mix of
    letter cases; how the text was cut into chunks, white space around it,
    and anything the child emits after the 'close' make no difference.
    When 'error' comes first the answer is false, whatever was written and
    whatever follows.  When the executor throws before its listeners are
    attached (no stdout stream, or [spawn] throwing) the promise is
    rejected with that exception, whatever the child emits. *)
Theorem isWebcamInUse_answer (chunks : list string) (more : list ChildEvent) :
  isWebcamInUse piped (map Data chunks ++ Close :: more)
    = Resolved (includes (toLowerCase (text chunks)) "true") /\
  isWebcamInUse piped (map Data chunks ++ Error :: more) = Resolved false /\
  (forall evs,
     isWebcamInUse (Returns {| has_stdout := false |}) evs = Rejected no_stdout_error) /\
  (forall e evs, isWebcamInUse (Throws e) evs = Rejected e).
Proof.
  unfold isWebcamInUse; simpl. repeat split; rewrite listen_eq.
  - destruct (@first_settle_data chunks Close more eq_refl) as [-> ->].
    now rewrite verdict_eq.
  - now destruct (@first_settle_data chunks Error more eq_refl) as [-> _].
Qed.

End ProbeAnswer.

(** ** Start-up, failure and shutdown *)

Section ProgramFacts.
Import Pipeline Control Program.

Ltac case_globals g :=
  let pm := fresh "pm" in let pp := fresh "pp" in
  destruct g as [pm pp ? ?];
  destruct pm as [[? [|] ? [|]]|]; destruct pp as [[? [|] [|] ?]|].

Ltac case_env env :=
  destruct env as [[?|] [?|] [?|] [?|] [?|]].

Lemma call_shape (vol : Js.number) (answers : list Settle) (g : Globals) :
  exists st effs, setMusicVolume_call vol answers g = (Ok st, g, effs).
Proof.
  destruct g as [pm pp [z|] st].
  - destruct answers as [|[|e] [|[|e'] rest]]; cbn;
      repeat rewrite drive_returned; cbn; eauto.
  - destruct answers; cbn; eauto.
Qed.

(** X12.  On SIGINT or SIGTERM the mute comes first, the teardown of the
    pipeline second, the exit last, and the exit code is 0.  The teardown
    and the exit wait for the mute: they happen exactly when the call of
    [setMusicVolume] is over, and while that call is suspended (a reply
    that never comes) nothing is torn down and the process does not exit.
    With no socket yet the exit is immediate. *)
Theorem signal_shutdown (answers : list Settle) (env : StopEnv) (g : Globals) :
  let r := on_signal answers env g in
  let c := setMusicVolume_call MUTE answers g in
  (result c = Ok Returned ->
   result r = Ok (Exits 0) /\
   effects r = effects c ++ effects (stopPipeline env g) ++ [Exit 0] /\
   globals r = {| procFfmpeg := None; procFfplay := None;
                  zmqSock := zmqSock g; stopping := true |}) /\
  (forall p, result c = Ok (Awaiting p) ->
   result r = Ok (StuckAt p) /\ globals r = g /\
   filter is_teardown (effects r) = []) /\
  (zmqSock g = None -> result r = Ok (Exits 0)) /\
  (forall code, In (Exit code) (effects r) -> code = 0%N).
Proof.
  intros r c.
  destruct (stopPipeline_once env g) as (R2 & G2 & _ & S2).
  assert (NoExit : forall code, ~ In (Exit code) (effects (stopPipeline env g))).
  { clear. intros code Hin. case_globals g; case_env env; cbv in Hin;
      intuition discriminate. }
  destruct (call_shape MUTE answers g) as (st & effs & Hc).
  assert (Hr : r = match st with
                   | Returned =>
                       (Ok (Exits 0), globals (stopPipeline env g),
                        effs ++ effects (stopPipeline env g) ++ [Exit 0])
                   | Awaiting p => (Ok (StuckAt p), g, effs)
                   end).
  { unfold r, on_signal, finally_. rewrite Hc. destruct st; [|reflexivity].
    unfold bind at 1. destruct (stopPipeline env g) as [[r2 g2] e2] eqn:Es.
    unfold result in R2; simpl in R2; subst r2. reflexivity. }
  assert (Teff : filter is_teardown effs = [] /\ forall code, ~ In (Exit code) effs).
  { clear - Hc. destruct g as [pm pp [z|] sp].
    - destruct answers as [|[|e] [|[|e'] rest]]; cbn in Hc;
        repeat rewrite drive_returned in Hc; cbn in Hc;
        injection Hc as _ <-; split; try reflexivity; intros code Hin;
        cbn in Hin; intuition discriminate.
    - destruct answers; cbn in Hc; injection Hc as _ <-; split; try reflexivity;
        intros code [].
  }
  unfold c. rewrite Hc, Hr. clear Hr r c.
  destruct st as [|q]; unfold result, globals, effects; simpl; repeat split;
    try discriminate; try (intros; congruence).
  - exact G2.
  - intros code Hin.
    apply in_app_or in Hin. destruct Hin as [Hin|Hin]; [now apply Teff in Hin|].
    apply in_app_or in Hin. destruct Hin as [Hin|[Heq|[]]]; [|congruence].
    now apply NoExit in Hin.
  - apply Teff.
  - intros Z. exfalso. clear - Hc Z. destruct g as [pm pp z sp]; simpl in Z; subst z.
    destruct answers; cbn in Hc; discriminate.
  - intros code Hin. now apply Teff in Hin.
Qed.

Lemma signal_shutdown_witness :
  result (on_signal [Fulfilled; Fulfilled] no_throw
            (globals (startPipeline {| ffmpeg_runs := true; ffplay_runs := true |}
                        connected_globals)))
  = Ok (Exits 0) /\
  result (on_signal [Fulfilled] no_throw connected_globals) = Ok (StuckAt AtReceive) /\
  result (on_signal [] no_throw globals0) = Ok (Exits 0).
Proof.
  split; [|split].
  - refine (proj1 (proj1 (@signal_shutdown [Fulfilled; Fulfilled] no_throw
                            (globals (startPipeline
                                        {| ffmpeg_runs := true; ffplay_runs := true |}
                                        connected_globals))) _)).
    reflexivity.
  - refine (proj1 (proj1 (proj2 (@signal_shutdown [Fulfilled] no_throw connected_globals))
                     AtReceive _)).
    reflexivity.
  - refine (proj1 (proj2 (proj2 (@signal_shutdown [] no_throw globals0))) _).
    reflexivity.
Defined.

Lemma startPipeline_eq (senv : StartEnv) (g : Globals) :
  startPipeline senv g =
    (Ok tt,
     {| procFfmpeg := Some {| killed := false; running := ffmpeg_runs senv;
                              stdin := false; stdout := true |};
        procFfplay := Some {| killed := false; running := ffplay_runs senv;
                              stdin := true; stdout := false |};
        zmqSock := zmqSock g; stopping := false |},
     start_effects).
Proof. destruct g; reflexivity. Qed.





(** X15.  After [stopPipeline], whatever it met on the way, no child
    closing makes the supervisor act: the close listener does nothing and
    does not throw. *)
Theorem stop_disarms_close_listener
        (env : StopEnv) (g : Globals) (l : Leg) (kt : option string) :
  dispatch_close l kt (globals (stopPipeline env g)) =
    (Ok tt, globals (stopPipeline env g), []).
Proof.
  destruct (stopPipeline_once env g) as (_ & G & _ & _). rewrite G.
  destruct l, kt; reflexivity.
Qed.

(** X16.  After [startPipeline], whatever state came before (a stopped
    pipeline included), the close listener is armed again: when ffplay
    closes and ffmpeg came up, ffmpeg is sent SIGTERM. *)
Theorem start_rearms_close_listener (senv : StartEnv) (g : Globals) :
  ffmpeg_runs senv = true ->
  effects (dispatch_close Ffplay None (globals (startPipeline senv g))) = [Kill Ffmpeg].
Proof.
  intros H. rewrite startPipeline_eq. unfold globals; simpl. rewrite H. reflexivity.
Qed.

Lemma start_rearms_close_listener_witness :
  effects (dispatch_close Ffplay None
             (globals (startPipeline {| ffmpeg_runs := true; ffplay_runs := false |}
                         (globals (stopPipeline no_throw connected_globals)))))
  = [Kill Ffmpeg].
Proof.
  refine (@start_rearms_close_listener {| ffmpeg_runs := true; ffplay_runs := false |}
            (globals (stopPipeline no_throw connected_globals)) _).
  reflexivity.
Defined.

Lemma dispatch_close_cases (l : Leg) (kt : option string) (g : Globals) :
  let r := dispatch_close l kt g in
  result r = Ok tt /\
  ((effects r = [] /\ ffmpeg_killed (globals r) = ffmpeg_killed g) \/
   (effects r = [Kill Ffmpeg] /\ ffmpeg_killed g = false /\
    ffmpeg_killed (globals r) = true)).
Proof.
  destruct g as [pm pp z st]; destruct l; destruct kt;
    destruct pm as [[[|] [|] ? ?]|]; destruct pp as [[? ? ? ?]|]; destruct st;
    cbv; split; auto.
Qed.

Lemma closes_count (evs : list (Leg * option string)) (g : Globals) :
  let r := closes evs g in
  result r = Ok tt /\
  ((filter is_kill (effects r) = [] /\ ffmpeg_killed (globals r) = ffmpeg_killed g) \/
   (filter is_kill (effects r) = [Kill Ffmpeg] /\ ffmpeg_killed g = false /\
    ffmpeg_killed (globals r) = true)).
Proof.
  revert g; induction evs as [|[l kt] evs IH]; intros g; simpl.
  - split; auto.
  - unfold bind.
    destruct (dispatch_close_cases l kt g) as [R1 C1].
    destruct (dispatch_close l kt g) as [[r1 g1] e1].
    unfold result, globals, effects in *; simpl in *. subst r1.
    destruct (IH g1) as [R2 C2].
    destruct (closes evs g1) as [[r2 g2] e2].
    unfold result, globals, effects in *; simpl in *. subst r2.
    split; [reflexivity|]. rewrite filter_app.
    destruct C1 as [[E1 K1] | (E1 & K0 & K1)]; rewrite E1; simpl.
    + destruct C2 as [[E2 K2] | (E2 & K02 & K2)]; [left | right]; split; auto.
      * congruence.
      * split; congruence.
    + destruct C2 as [[E2 K2] | (E2 & K02 & K2)]; [|congruence].
      right. rewrite E2. repeat split; congruence.
Qed.

(** X17.  However many times and in whatever order the two children are
    reported closed, the close listener sends at most one signal in all,
    to ffmpeg, and never throws. *)
Theorem fault_propagation_at_most_once (evs : list (Leg * option string)) (g : Globals) :
  result (closes evs g) = Ok tt /\
  (filter is_kill (effects (closes evs g)) = [] \/
   filter is_kill (effects (closes evs g)) = [Kill Ffmpeg]).
Proof.
  destruct (closes_count evs g) as [R [[E _] | (E & _)]]; auto.
Qed.

(** X18.  A step of the teardown that throws does not stop the later
    ones: each child that is still there is sent SIGTERM by [stopPipeline]
    unless that very kill throws, whatever the other four calls do. *)
Theorem stopPipeline_reaches_every_kill (env : StopEnv) (g : Globals) (l : Leg) :
  has_stream running (proc l g) = true ->
  match l with Ffmpeg => kill_ffmpeg_throws env | Ffplay => kill_ffplay_throws env end
    = None ->
  In (Kill l) (effects (stopPipeline env g)).
Proof.
  intros Hr Hk.
  destruct l; case_globals g; cbn in Hr; try discriminate;
    case_env env; cbn in Hk; try discriminate; cbv; tauto.
Qed.

Lemma stopPipeline_reaches_every_kill_witness :
  In (Kill Ffmpeg)
     (effects (stopPipeline
                 {| unpipe_throws := Some "EPIPE"; end_throws := Some "EPIPE";
                    destroy_throws := Some "EPIPE"; kill_ffplay_throws := Some "ESRCH";
                    kill_ffmpeg_throws := None |}
                 (globals (startPipeline {| ffmpeg_runs := true; ffplay_runs := true |}
                             globals0)))).
Proof.
  refine (@stopPipeline_reaches_every_kill _ _ Ffmpeg _ _); reflexivity.
Defined.

End ProgramFacts.
